(** * bioquery_agents: the workflow engine, embedded and verified

A shallow embedding of the execution engine of [bioquery_agents]
(graph.py, retry.py, checkpoint.py, middleware.py, subgraph.py,
planning.py) and the theorems that settle the properties stated about it.

Conventions of the embedding

- A state is a Python [dict[str, Any]]: a finite map from strings to
  Python values ([gmap string value]).  Equal states hold the same data;
  [py_eq] is Python's [==] on values, which differs from that on NaN and
  across the number types.
- A Python float is a binary64 number: a primitive float, with the
  arithmetic and the comparisons of IEEE 754.
- An [async def] is modelled by the function it computes; [await] is
  sequencing.  A handler may have effects of its own (counters, network):
  it threads a world [W] that the engine never inspects.
- A handler that raises hands back the exception together with the
  contents of the state object at that moment: the engine keeps using the
  same object after a failure, so in-place writes made before the raise
  stay visible.
- Loops that need not terminate ([StateGraph.run]) take a fuel argument
  that bounds the number of iterations. *)

From Stdlib Require Import Floats DecimalString.
From stdpp Require Import base option list strings gmap fin_maps.

Set Warnings "-register-all,-inexact-float".
Open Scope string_scope.
Open Scope list_scope.

(** ** Python values, truthiness and exceptions *)

Module Py.

(** A key of a nested dict: [None], a bool, an int, a string, or any other
    hashable object ([KOther]: a tuple, a frozenset, ...), which the [json]
    module rejects as a key.  Float keys are outside the model (their JSON
    name is the text of [float.__repr__]). *)
Inductive key : Type :=
| KNone
| KBool (b : bool)
| KInt (z : Z)
| KStr (s : string)
| KOther (id : nat).

(** The values a state can hold.  Nested containers are kept as data; a
    nested dict keeps its items in insertion order.  A float is a binary64
    number, as in CPython.  [VMember enum name] is the member [name] of the
    plain [Enum] class [enum].  [VObject] stands for any other object: one
    the [json] module cannot encode and that is equal to itself only (a
    function, an instance of a class that defines no [__eq__]). *)
Inductive value : Type :=
| VNone
| VBool (b : bool)
| VInt (z : Z)
| VFloat (f : float)
| VStr (s : string)
| VList (items : list value)
| VTuple (items : list value)
| VDict (items : list (key * value))
| VMember (enum name : string)
| VObject (id : nat).

Abbreviation State := (gmap string value) (only parsing).

(** [bool(v)]: the truth value Python's [if v:] tests. *)
Definition truthy (v : value) : bool :=
  match v with
  | VNone => false
  | VBool b => b
  | VInt z => negb (z =? 0)%Z
  | VFloat f => negb (f =? 0)%float
  | VStr s => negb (String.eqb s "")
  | VList l | VTuple l => negb (Nat.eqb (length l) 0)
  | VDict d => negb (Nat.eqb (length d) 0)
  | VMember _ _ => true
  | VObject _ => true
  end.

(** [int == float]: Python compares the two numbers exactly. *)
Definition float_eq_int (f : float) (z : Z) : bool :=
  match Prim2SF f with
  | S754_zero _ => (z =? 0)%Z
  | S754_finite s m e =>
      let n := if s then Z.neg m else Z.pos m in
      if (0 <=? e)%Z then (z =? n * 2 ^ e)%Z
      else ((n mod 2 ^ (- e) =? 0) && (z =? n / 2 ^ (- e)))%Z
  | S754_infinity _ | S754_nan => false
  end.

(** [a == b] for two keys, which is also whether they are the same key of
    a dict: [True] and [1] are. *)
Definition key_eqb (a b : key) : bool :=
  match a, b with
  | KNone, KNone => true
  | KBool a, KBool b => Bool.eqb a b
  | KBool a, KInt z | KInt z, KBool a => (Z.b2z a =? z)%Z
  | KInt a, KInt b => (a =? b)%Z
  | KStr a, KStr b => String.eqb a b
  | KOther a, KOther b => Nat.eqb a b
  | _, _ => false
  end.

(** [d.get(k)] on the items of a nested dict. *)
Definition dict_get (d : list (key * value)) (k : key) : option value :=
  snd <$> find (fun kx => key_eqb (fst kx) k) d.

(** Two lists of the same length whose items are related pairwise. *)
Fixpoint all2 {A : Type} (rel : A -> A -> bool) (l m : list A) : bool :=
  match l, m with
  | [], [] => true
  | x :: l, y :: m => rel x y && all2 rel l m
  | _, _ => false
  end.

(** [a == b] for two values that share no object.  Numbers are compared by
    value whatever their type, and NaN is equal to nothing; a list is never
    equal to a tuple; two dicts are equal when they have as many items and
    the same value under each key. *)
Fixpoint py_eq (a b : value) : bool :=
  match a, b with
  | VNone, VNone => true
  | VBool a, VBool b => Bool.eqb a b
  | VBool a, VInt z | VInt z, VBool a => (Z.b2z a =? z)%Z
  | VBool a, VFloat f | VFloat f, VBool a => float_eq_int f (Z.b2z a)
  | VInt a, VInt b => (a =? b)%Z
  | VInt z, VFloat f | VFloat f, VInt z => float_eq_int f z
  | VFloat a, VFloat b => (a =? b)%float
  | VStr a, VStr b => String.eqb a b
  | VList l, VList m | VTuple l, VTuple m => all2 py_eq l m
  | VDict d, VDict e =>
      Nat.eqb (length d) (length e) &&
      forallb (fun kx => match dict_get e (fst kx) with
                         | Some y => py_eq (snd kx) y
                         | None => false
                         end) d
  | VMember c a, VMember d b => String.eqb c d && String.eqb a b
  | VObject a, VObject b => Nat.eqb a b
  | _, _ => false
  end.

(** [d.get(k)]: the value under [k], or Python's [None]. *)
Definition get (d : State) (k : string) : value := default VNone (d !! k).

(** An exception object: its class, the proper ancestors of that class
    (nearest first), the text [str(e)] yields and what [bool(e)] yields:
    [True], unless the class defines [__bool__] or [__len__]. *)
Record exn : Type := Exn {
  exn_class : string;
  exn_bases : list string;
  exn_msg : string;
  exn_bool : bool
}.

(** [isinstance(e, cls)]. *)
Definition isinstance (e : exn) (cls : string) : bool :=
  bool_decide (cls = exn_class e ∨ cls ∈ exn_bases e).

(** [except classes as e]: does the clause catch [e]? *)
Definition catches (classes : list string) (e : exn) : bool :=
  existsb (isinstance e) classes.

Definition ValueError (msg : string) : exn :=
  Exn "ValueError" ["Exception"; "BaseException"] msg true.
Definition TypeError (msg : string) : exn :=
  Exn "TypeError" ["Exception"; "BaseException"] msg true.
Definition KeyError (msg : string) : exn :=
  Exn "KeyError" ["LookupError"; "Exception"; "BaseException"] msg true.
Definition RuntimeError (msg : string) : exn :=
  Exn "RuntimeError" ["Exception"; "BaseException"] msg true.
Definition KeyboardInterrupt (msg : string) : exn :=
  Exn "KeyboardInterrupt" ["BaseException"] msg true.

(** What a call of a Python function on a state object yields: the value it
    returns, or the exception it raises together with the contents of the
    argument object when the exception left the call. *)
Inductive outcome : Type :=
| Ok (state : State)
| Fail (e : exn) (state : State).

End Py.
Export Py.

(** ** The [json] module: encodable values and the round trip *)

Module Json.

(** A JSON document.  A number is written as an integer or as a float, and
    [json.loads] reads it back as what it was written as. *)
Inductive json : Type :=
| JNull
| JBool (b : bool)
| JNum (z : Z)
| JFloat (f : float)
| JStr (s : string)
| JArr (items : list json)
| JObj (members : list (string * json)).

(** [str(z)]: the decimal digits of an int. *)
Definition int_str (z : Z) : string := NilZero.string_of_int (Z.to_int z).

(** The member name [json.dumps] writes for a dict key: a string as it is,
    [True], [False] and [None] as the JSON constants, an int in decimal;
    any other key raises [TypeError]. *)
Definition key_name (k : key) : option string :=
  match k with
  | KStr s => Some s
  | KBool true => Some "true"
  | KBool false => Some "false"
  | KNone => Some "null"
  | KInt z => Some (int_str z)
  | KOther _ => None
  end.

(** [json.dumps(v)]: [None] when it raises [TypeError].  Lists and tuples
    are both written as arrays; a float is written so that it reads back as
    the same float (NaN and the infinities included, [allow_nan] being
    on). *)
Fixpoint dumps (v : value) : option json :=
  match v with
  | VNone => Some JNull
  | VBool b => Some (JBool b)
  | VInt z => Some (JNum z)
  | VFloat f => Some (JFloat f)
  | VStr s => Some (JStr s)
  | VList l | VTuple l => JArr <$> mapM dumps l
  | VDict d =>
      JObj <$> mapM (fun kx => name ← key_name (fst kx);
                               pair name <$> dumps (snd kx)) d
  | VMember _ _ | VObject _ => None
  end.

(** [d[name] = v] on the items of a dict: the value under an existing key
    is replaced where it stands, a new key goes to the end. *)
Definition dict_set (name : string) (v : value) (d : list (key * value))
  : list (key * value) :=
  if existsb (fun kx => key_eqb (fst kx) (KStr name)) d
  then (fun kx => if key_eqb (fst kx) (KStr name) then (fst kx, v) else kx)
         <$> d
  else d ++ [(KStr name, v)].

(** The dict [json.loads] builds for an object: its members are set one
    after the other, so of two members with one name the later value stays. *)
Definition object_pairs (members : list (string * value))
  : list (key * value) :=
  foldl (fun d nv => dict_set (fst nv) (snd nv) d) [] members.

(** [json.loads]: arrays come back as lists, objects as dicts with string
    keys. *)
Fixpoint loads (j : json) : value :=
  match j with
  | JNull => VNone
  | JBool b => VBool b
  | JNum z => VInt z
  | JFloat f => VFloat f
  | JStr s => VStr s
  | JArr l => VList (loads <$> l)
  | JObj m => VDict (object_pairs (prod_map id loads <$> m))
  end.

(** Would [json.dumps(v)] succeed? *)
Definition serializable (v : value) : bool :=
  match dumps v with Some _ => true | None => false end.

(** [json.loads(json.dumps(v))], for a value [json.dumps] accepts: every
    tuple becomes a list and every dict key a string. *)
Definition normalize (v : value) : value :=
  match dumps v with Some doc => loads doc | None => v end.

(** A value that contains no tuple. *)
Fixpoint tuple_free (v : value) : bool :=
  match v with
  | VTuple _ => false
  | VList l => forallb tuple_free l
  | VDict d => forallb (fun kx => tuple_free (snd kx)) d
  | _ => true
  end.

(** [isinstance(k, str)]. *)
Definition is_str (k : key) : bool :=
  match k with KStr _ => true | _ => false end.

(** A value in which every key of every dict is a string. *)
Fixpoint str_keys (v : value) : bool :=
  match v with
  | VList l | VTuple l => forallb str_keys l
  | VDict d => forallb (fun kx => is_str (fst kx) && str_keys (snd kx)) d
  | _ => true
  end.

(** A value that contains no NaN. *)
Fixpoint nan_free (v : value) : bool :=
  match v with
  | VFloat f => negb (is_nan f)
  | VList l | VTuple l => forallb nan_free l
  | VDict d => forallb (fun kx => nan_free (snd kx)) d
  | _ => true
  end.

(** No two items of a dict have the same key. *)
Fixpoint distinct_keys (d : list (key * value)) : bool :=
  match d with
  | [] => true
  | kx :: d =>
      negb (existsb (fun ky => key_eqb (fst ky) (fst kx)) d) &&
      distinct_keys d
  end.

(** The items of every dict inside the value have distinct keys, as those
    of a Python dict do; lists of items that break this rule stand for no
    Python value. *)
Fixpoint well_formed (v : value) : bool :=
  match v with
  | VList l | VTuple l => forallb well_formed l
  | VDict d =>
      distinct_keys d && forallb (fun kx => well_formed (snd kx)) d
  | _ => true
  end.

(** What the round trip makes of the value under one key: dropped when
    [json.dumps] rejects it, normalised otherwise. *)
Definition persisted (v : value) : option value :=
  if serializable v then Some (normalize v) else None.

Section ValueInduction.
Variable P : value -> Prop.
Hypothesis HNone : P VNone.
Hypothesis HBool : forall b, P (VBool b).
Hypothesis HInt : forall z, P (VInt z).
Hypothesis HFloat : forall f, P (VFloat f).
Hypothesis HStr : forall s, P (VStr s).
Hypothesis HList : forall l, Forall P l -> P (VList l).
Hypothesis HTuple : forall l, Forall P l -> P (VTuple l).
Hypothesis HDict : forall d, Forall (fun kx => P (snd kx)) d -> P (VDict d).
Hypothesis HMember : forall c n, P (VMember c n).
Hypothesis HObject : forall n, P (VObject n).

(** Induction on values that reaches inside lists, tuples and dicts. *)
Fixpoint value_nested_ind (v : value) : P v :=
  match v with
  | VNone => HNone
  | VBool b => HBool b
  | VInt z => HInt z
  | VFloat f => HFloat f
  | VStr s => HStr s
  | VList l =>
      HList l ((fix all (l : list value) : Forall P l :=
                  match l with
                  | [] => Forall_nil_2 P
                  | x :: r => Forall_cons_2 P x r (value_nested_ind x) (all r)
                  end) l)
  | VTuple l =>
      HTuple l ((fix all (l : list value) : Forall P l :=
                   match l with
                   | [] => Forall_nil_2 P
                   | x :: r => Forall_cons_2 P x r (value_nested_ind x) (all r)
                   end) l)
  | VDict d =>
      HDict d ((fix all (d : list (key * value))
                  : Forall (fun kx => P (snd kx)) d :=
                  match d with
                  | [] => Forall_nil_2 _
                  | kx :: r =>
                      Forall_cons_2 (fun kx => P (snd kx)) kx r
                        (value_nested_ind (snd kx)) (all r)
                  end) d)
  | VMember c n => HMember c n
  | VObject n => HObject n
  end.
End ValueInduction.

End Json.

(** ** checkpoint.py *)

Module Checkpoint.
Import Json.

(** The abstract base class [Checkpointer], as [StateGraph.run] uses it:
    [C] is whatever the implementation keeps.  [load] hands back the
    contents of the dict it returns ([None] for "not found"). *)
Record Checkpointer (C : Type) : Type := {
  save : value -> State -> C -> C;
  load : value -> C -> option State * C;
  delete : value -> C -> C
}.
Arguments save {C}.
Arguments load {C}.
Arguments delete {C}.

(** [Checkpointer.exists]: [await self.load(thread_id) is not None]. *)
Definition exists_ {C} (self : Checkpointer C) (thread_id : value) (c : C)
  : bool * C :=
  let '(saved, c) := load self thread_id c in
  (match saved with Some _ => true | None => false end, c).

End Checkpoint.

(** [MemoryCheckpointer].  The dicts it stores are objects: [load] returns a
    reference, and whoever holds a reference can write through it.  Objects
    live in a heap addressed by position; creating one appends it.  Instants
    and durations are integers in one unit of time. *)
Module MemoryCheckpointer.
Import Json.

Abbreviation loc := nat (only parsing).
Abbreviation heap := (list (gmap string value)) (only parsing).

Record t : Type := {
  _store : gmap string loc;
  _timestamps : gmap string Z;
  _ttl : Z
}.

(** [__init__(ttl_seconds)]. *)
Definition init (ttl_seconds : Z) : t :=
  {| _store := ∅; _timestamps := ∅; _ttl := ttl_seconds |}.

(** [_serialize]: keep the items whose value [json.dumps] accepts. *)
Definition _serialize (state : State) : State :=
  filter (fun kv => serializable (snd kv) = true) state.

(** A state dict as a value: its keys are strings. *)
Definition of_state (state : State) : value :=
  VDict (prod_map KStr id <$> map_to_list state).

(** [json.dumps] applied to a state dict. *)
Definition dumps_state (state : State) : option json :=
  dumps (of_state state).

(** The string under which a state dict holds an item of a loaded dict. *)
Definition state_item (kx : key * value) : option (string * value) :=
  match fst kx with
  | KStr s => Some (s, snd kx)
  | _ => None
  end.

(** [json.loads] of a document that is expected to be an object; the keys
    of the dict it builds are strings. *)
Definition loads_state (doc : json) : option State :=
  match loads doc with
  | VDict items => Some (list_to_map (omap state_item items))
  | _ => None
  end.

(** [save]: the snapshot is a new object built by
    [json.loads(json.dumps(self._serialize(state)))]; [inl] when
    [json.dumps] raises. *)
Definition save (thread_id : string) (state : State) (now : Z)
    (self : t) (h : heap) : exn + (t * heap) :=
  match dumps_state (_serialize state) with
  | None => inl (TypeError "Object is not JSON serializable")
  | Some doc =>
      match loads_state doc with
      | None => inl (TypeError "Object is not JSON serializable")
      | Some snapshot =>
          inr ({| _store := <[thread_id := List.length h]> (_store self);
                  _timestamps := <[thread_id := now]> (_timestamps self);
                  _ttl := _ttl self |},
               h ++ [snapshot])
      end
  end.

(** [delete]: both dicts drop the key. *)
Definition delete (thread_id : string) (self : t) : t :=
  {| _store := base.delete thread_id (_store self);
     _timestamps := base.delete thread_id (_timestamps self);
     _ttl := _ttl self |}.

(** [load]: the reference held in [_store], unless absent or expired. *)
Definition load (thread_id : string) (now : Z) (self : t)
  : (exn + option loc) * t :=
  match _store self !! thread_id with
  | None => (inr None, self)
  | Some l =>
      match _timestamps self !! thread_id with
      | None => (inl (KeyError thread_id), self)
      | Some saved_at =>
          if (now - saved_at >? _ttl self)%Z
          then (inr None, delete thread_id self)
          else (inr (Some l), self)
      end
  end.

(** [clear] and [size]. *)
Definition clear (self : t) : t :=
  {| _store := ∅; _timestamps := ∅; _ttl := _ttl self |}.
Definition size (self : t) : nat := base.size (_store self).

(** The object a reference denotes. *)
Definition deref (h : heap) (r : loc) : option State := h !! r.

(** [d[k] = v] through a reference to [d]. *)
Definition setitem (r : loc) (k : string) (v : value) (h : heap) : heap :=
  alter (fun d : State => <[k := v]> d) r h.

(** [save] then, at instant [later], [load], read through the returned
    reference. *)
Definition save_then_load (thread_id : string) (state : State)
    (now later : Z) (self : t) (h : heap) : option State :=
  match save thread_id state now self h with
  | inl _ => None
  | inr (self', h') =>
      match load thread_id later self' with
      | (inr (Some r), _) => deref h' r
      | _ => None
      end
  end.

(** A [MemoryCheckpointer] read at a fixed instant, as the [Checkpointer]
    that [StateGraph.run] is handed.  Its keys are strings, the type the
    interface declares for thread identifiers. *)
Definition as_checkpointer (now : Z) : Checkpoint.Checkpointer (t * heap) :=
  {| Checkpoint.save := fun thread_id state c =>
       match thread_id with
       | VStr tid =>
           match save tid state now (fst c) (snd c) with
           | inr c' => c'
           | inl _ => c
           end
       | _ => c
       end;
     Checkpoint.load := fun thread_id c =>
       match thread_id with
       | VStr tid =>
           match load tid now (fst c) with
           | (inr (Some r), self') => (deref (snd c) r, (self', snd c))
           | (_, self') => (None, (self', snd c))
           end
       | _ => (None, c)
       end;
     Checkpoint.delete := fun thread_id c =>
       match thread_id with
       | VStr tid => (delete tid (fst c), snd c)
       | _ => c
       end |}.

End MemoryCheckpointer.

(** ** retry.py *)

Module Retry.

(** The intervals are Python floats: binary64 numbers, multiplied with
    rounding and compared as IEEE 754 has it. *)
Record RetryPolicy : Type := {
  max_attempts : Z;
  initial_interval : float;
  backoff_multiplier : float;
  max_interval : float;
  retry_on : list string
}.

(** The dataclass defaults. *)
Definition defaults : RetryPolicy :=
  {| max_attempts := 3; initial_interval := 1; backoff_multiplier := 2;
     max_interval := 30; retry_on := ["Exception"] |}.

(** Python's [min(a, b)]: [b] when [b < a] holds, else [a]; a comparison
    with NaN never holds. *)
Definition py_min (a b : float) : float := if (b <? a)%float then b else a.

(** What [execute] does besides computing: calls of the handler (with the
    state it is given) and backoff sleeps. *)
Inductive event : Type :=
| Invoke (state : State)
| Sleep (interval : float).

Section Execute.
Context {W : Type}.

(** The function [execute] wraps, a node handler in particular: called on
    the state, it returns the updated state or raises. *)
Definition Handler : Type := State -> W -> outcome * W.

(** The [for attempt in range(self.max_attempts)] loop, [remaining]
    iterations from index [attempt] on, followed by the two [raise]
    statements after it: [if last_exception:] tests the truth value of the
    exception. *)
Fixpoint attempts (self : RetryPolicy) (func : Handler) (remaining : nat)
    (attempt : Z) (interval : float) (last_exception : option exn)
    (state : State) (w : W) : outcome * W * list event :=
  match remaining with
  | O =>
      match last_exception with
      | Some e =>
          if exn_bool e then (Fail e state, w, [])
          else
            (Fail (RuntimeError
                     "Retry loop completed without result or exception")
                  state, w, [])
      | None =>
          (Fail (RuntimeError
                   "Retry loop completed without result or exception")
                state, w, [])
      end
  | S remaining =>
      match func state w with
      | (Ok result, w) => (Ok result, w, [Invoke state])
      | (Fail e state', w) =>
          if catches (retry_on self) e then
            if (attempt <? max_attempts self - 1)%Z then
              let '(r, w, log) :=
                attempts self func remaining (attempt + 1)
                  (py_min (interval * backoff_multiplier self)
                          (max_interval self))
                  (Some e) state' w in
              (r, w, Invoke state :: Sleep interval :: log)
            else
              let '(r, w, log) :=
                attempts self func remaining (attempt + 1) interval
                  (Some e) state' w in
              (r, w, Invoke state :: log)
          else (Fail e state', w, [Invoke state])
      end
  end.

(** [RetryPolicy.execute]. *)
Definition execute (self : RetryPolicy) (func : Handler) (state : State)
    (w : W) : outcome * W * list event :=
  attempts self func (Z.to_nat (max_attempts self)) 0
    (initial_interval self) None state w.

End Execute.

(** [with_max_attempts] and [with_retry_on]: copies with one field
    replaced. *)
Definition with_max_attempts (self : RetryPolicy) (n : Z) : RetryPolicy :=
  {| max_attempts := n; initial_interval := initial_interval self;
     backoff_multiplier := backoff_multiplier self;
     max_interval := max_interval self; retry_on := retry_on self |}.
Definition with_retry_on (self : RetryPolicy) (exceptions : list string)
  : RetryPolicy :=
  {| max_attempts := max_attempts self;
     initial_interval := initial_interval self;
     backoff_multiplier := backoff_multiplier self;
     max_interval := max_interval self; retry_on := exceptions |}.

(** How many times a log records a call of the handler. *)
Definition invocations (log : list event) : nat :=
  List.length
    (omap (fun ev => match ev with Invoke s => Some s | Sleep _ => None end)
          log).

(** The backoff sleeps a log records, in order. *)
Definition sleeps (log : list event) : list float :=
  omap (fun ev => match ev with Sleep q => Some q | Invoke _ => None end) log.

End Retry.

(** ** graph.py *)

Module Graph.
Import Checkpoint Retry.

Inductive NodeStatus : Type := PENDING | RUNNING | SUCCESS | FAILED | SKIPPED.

(** [NodeStatus.X.value]. *)
Definition status_value (s : NodeStatus) : string :=
  match s with
  | PENDING => "pending"
  | RUNNING => "running"
  | SUCCESS => "success"
  | FAILED => "failed"
  | SKIPPED => "skipped"
  end.

(** An edge; a router is a function of the state that names the next node
    (or returns [None]); it reads the state and has no effect of its own. *)
Record Edge : Type := {
  source : string;
  target : option string;
  condition : option (State -> option string)
}.

Section Graph.
Context {W C : Type}.

Record Node : Type := {
  name : string;
  handler : Handler (W := W);
  retry_policy : option RetryPolicy;
  on_failure : string
}.

Record StateGraph : Type := {
  nodes : gmap string Node;
  edges : list Edge;
  entry_point : option string
}.

(** [StateGraph()]. *)
Definition empty : StateGraph :=
  {| nodes := ∅; edges := []; entry_point := None |}.

(** [add_node]: [self.nodes[name] = Node(...)]. *)
Definition add_node (self : StateGraph) (name : string)
    (handler : Handler) (retry_policy : option RetryPolicy)
    (on_failure : string) : StateGraph :=
  {| nodes := <[name := {| name := name; handler := handler;
                           retry_policy := retry_policy;
                           on_failure := on_failure |}]> (nodes self);
     edges := edges self;
     entry_point := entry_point self |}.

(** [add_edge] and [add_conditional_edge] append to [self.edges]. *)
Definition add_edge (self : StateGraph) (source target : string)
  : StateGraph :=
  {| nodes := nodes self;
     edges := edges self ++
              [{| source := source; target := Some target;
                  condition := None |}];
     entry_point := entry_point self |}.

Definition add_conditional_edge (self : StateGraph) (source : string)
    (router : State -> option string) : StateGraph :=
  {| nodes := nodes self;
     edges := edges self ++
              [{| source := source; target := None;
                  condition := Some router |}];
     entry_point := entry_point self |}.

(** [set_entry_point]: raises for a name that is not a node. *)
Definition set_entry_point (self : StateGraph) (node : string)
  : exn + StateGraph :=
  match nodes self !! node with
  | None => inl (ValueError ("Unknown node: " +:+ node))
  | Some _ =>
      inr {| nodes := nodes self; edges := edges self;
             entry_point := Some node |}
  end.

(** [_execute_node]: through the retry policy when the node has one. *)
Definition _execute_node (node : Node) (state : State) (w : W)
  : outcome * W :=
  match retry_policy node with
  | Some policy => fst (execute policy (handler node) state w)
  | None => handler node state w
  end.

(** The loop of [_get_next_node] over [self.edges]. *)
Fixpoint first_edge (es : list Edge) (current : string) (state : State)
  : option string :=
  match es with
  | [] => None
  | edge :: rest =>
      if negb (String.eqb (source edge) current)
      then first_edge rest current state
      else match condition edge with
           | Some router => router state
           | None => target edge
           end
  end.

Definition _get_next_node (self : StateGraph) (current : string)
    (state : State) : option string :=
  first_edge (edges self) current state.

(** [if checkpointer and thread_id: await checkpointer.save(thread_id,
    state)]. *)
Definition save_checkpoint (checkpointer : option (Checkpointer C))
    (thread_id : value) (state : State) (c : C) : C :=
  match checkpointer with
  | Some ck => if truthy thread_id then save ck thread_id state c else c
  | None => c
  end.

(** The [try]/[except] of one iteration: control falls through to the
    checkpoint that follows, jumps to another node ([continue]), or an
    exception leaves [run]. *)
Inductive attempt_result : Type :=
| Proceed (state : State) (w : W) (c : C)
| Redirect (target : string) (state : State) (w : W) (c : C)
| Propagate (e : exn) (w : W) (c : C).

Definition try_node (checkpointer : option (Checkpointer C))
    (thread_id : value) (node : Node) (state : State) (w : W) (c : C)
  : attempt_result :=
  match _execute_node node state w with
  | (Ok state, w) =>
      Proceed (<["_node_status" := VStr (status_value SUCCESS)]> state) w c
  | (Fail e state, w) =>
      if isinstance e "Exception" then
        let state := <["_node_status" := VStr (status_value FAILED)]> state in
        let state := <["_error" := VStr (exn_msg e)]> state in
        if String.eqb (on_failure node) "error" then
          Propagate e w (save_checkpoint checkpointer thread_id state c)
        else if String.eqb (on_failure node) "skip" then
          Proceed (<["_node_status" := VStr (status_value SKIPPED)]> state)
                  w c
        else Redirect (on_failure node) state w c
      else Propagate e w c
  end.

(** [state["_current_node"] = current_node] and
    [state["_node_status"] = NodeStatus.RUNNING.value]. *)
Definition mark_running (current_node : string) (state : State) : State :=
  <["_node_status" := VStr (status_value RUNNING)]>
    (<["_current_node" := VStr current_node]> state).

(** One iteration of the [while] loop of [run]. *)
Inductive step_result : Type :=
| Next (current_node : option string) (state : State) (w : W) (c : C)
| Raise (e : exn) (w : W) (c : C).

Definition step (self : StateGraph)
    (checkpointer : option (Checkpointer C)) (thread_id : value)
    (current_node : string) (state : State) (w : W) (c : C)
  : step_result :=
  match nodes self !! current_node with
  | None => Raise (ValueError ("Unknown node: " +:+ current_node)) w c
  | Some node =>
      let state := mark_running current_node state in
      match try_node checkpointer thread_id node state w c with
      | Propagate e w c => Raise e w c
      | Redirect target state w c => Next (Some target) state w c
      | Proceed state w c =>
          let c := save_checkpoint checkpointer thread_id state c in
          Next (_get_next_node self current_node state) state w c
      end
  end.

(** [while current_node and current_node != "END"]: the node to run, if
    the loop goes on. *)
Definition running (current_node : option string) : option string :=
  match current_node with
  | Some n =>
      if String.eqb n "" || String.eqb n "END" then None else Some n
  | None => None
  end.

(** What a call of [run] comes to.  [RaisedOnMarker v]: the lookup
    [self.nodes.get(v)] of a resumed [_current_node] that is not a string
    failed before any node ran, with [TypeError] when [v] is unhashable and
    with [ValueError("Unknown node: ...")] otherwise. *)
Inductive run_result : Type :=
| Returned (state : State) (w : W) (c : C)
| Raised (e : exn) (w : W) (c : C)
| OutOfFuel
| RaisedOnMarker (marker : value) (w : W) (c : C).

Fixpoint loop (self : StateGraph)
    (checkpointer : option (Checkpointer C)) (thread_id : value)
    (fuel : nat) (current_node : option string) (state : State)
    (w : W) (c : C) : run_result :=
  match running current_node with
  | None => Returned state w c
  | Some current =>
      match fuel with
      | O => OutOfFuel
      | S fuel =>
          match step self checkpointer thread_id current state w c with
          | Raise e w c => Raised e w c
          | Next current_node state w c =>
              loop self checkpointer thread_id fuel current_node state w c
          end
      end
  end.

(** The value of [current_node] when the loop is entered: a node name or
    [None], as the annotation [str | None] has it, or whatever else a
    checkpoint held under ["_current_node"]. *)
Inductive start : Type :=
| At (current_node : option string)
| Marker (marker : value).

Definition node_ref (v : value) : start :=
  match v with
  | VStr n => At (Some n)
  | VNone => At None
  | _ => Marker v
  end.

(** The checkpoint lookup at the start of [run]: the state and the value of
    [current_node] to start from. *)
Definition resume (entry : string)
    (checkpointer : option (Checkpointer C)) (thread_id : value)
    (state : State) (c : C) : State * start * C :=
  match checkpointer with
  | Some ck =>
      if truthy thread_id then
        let '(saved, c) := load ck thread_id c in
        match saved with
        | Some saved =>
            if Nat.eqb (size saved) 0 then (state, At (Some entry), c)
            else
              let state := saved ∪ state in
              (state,
               match state !! "_current_node" with
               | Some v => node_ref v
               | None => At (Some entry)
               end, c)
        | None => (state, At (Some entry), c)
        end
      else (state, At (Some entry), c)
  | None => (state, At (Some entry), c)
  end.

(** [StateGraph.run].  A marker that is not a string ends the loop at once
    when it is falsy; when it is truthy, it is no key of [self.nodes]. *)
Definition run (self : StateGraph) (initial_state : State)
    (checkpointer : option (Checkpointer C)) (fuel : nat) (w : W) (c : C)
  : run_result :=
  match entry_point self with
  | None =>
      Raised (ValueError
                "Entry point not set. Call set_entry_point() first.") w c
  | Some entry =>
      let state := initial_state in
      let thread_id := get state "thread_id" in
      let '(state, current_node, c) :=
        resume entry checkpointer thread_id state c in
      match current_node with
      | At current_node =>
          loop self checkpointer thread_id fuel current_node state w c
      | Marker v =>
          if truthy v then RaisedOnMarker v w c else Returned state w c
      end
  end.

(** The arguments of one [add_node] call. *)
Record add_node_call : Type := {
  call_name : string;
  call_handler : Handler (W := W);
  call_retry_policy : option RetryPolicy;
  call_on_failure : string
}.

(** The node an [add_node] call builds. *)
Definition node_of_call (call : add_node_call) : Node :=
  {| name := call_name call; handler := call_handler call;
     retry_policy := call_retry_policy call;
     on_failure := call_on_failure call |}.

(** A sequence of [add_node] calls, first to last. *)
Definition add_nodes (self : StateGraph) (calls : list add_node_call)
  : StateGraph :=
  foldl (fun g call =>
           add_node g (call_name call) (call_handler call)
                    (call_retry_policy call) (call_on_failure call))
        self calls.

(** The last call of a sequence that names [n]. *)
Definition last_call (n : string) (calls : list add_node_call)
  : option add_node_call :=
  last (filter (fun call => call_name call = n) calls).

End Graph.

Arguments Node : clear implicits.
Arguments add_node_call : clear implicits.
Arguments StateGraph : clear implicits.
Arguments attempt_result : clear implicits.
Arguments step_result : clear implicits.
Arguments run_result : clear implicits.

End Graph.

(** ** subgraph.py *)

Module Subgraph.
Import Checkpoint Graph.

(** The dict [execute] returns: ["success"], and ["result"] or
    ["error"]. *)
Record SubgraphResult : Type := {
  success : bool;
  result : option State;
  error : option string
}.

Section Subgraph.
Context {W C : Type}.

Record SubgraphExecutor : Type := {
  graph : StateGraph W;
  checkpointer : option (Checkpointer C)
}.

(** The inheritance loop: [substate[key] = parent_state[key]] for the
    keys the parent has. *)
Definition inherit (substate : State) (parent_state : option State)
    (inherit_keys : option (list string)) : State :=
  match parent_state, inherit_keys with
  | Some parent, Some (key :: keys) =>
      if Nat.eqb (size parent) 0 then substate
      else
        foldl (fun sub key =>
                 match parent !! key with
                 | Some v => <[key := v]> sub
                 | None => sub
                 end) substate (key :: keys)
  | _, _ => substate
  end.

(** [{k: result.get(k) for k in return_keys if k in result}]. *)
Definition select (result : State) (return_keys : list string) : State :=
  foldl (fun filtered k =>
           match result !! k with
           | Some _ => <[k := get result k]> filtered
           | None => filtered
           end) ∅ return_keys.

(** What a call of [execute] comes to: a returned record, an exception
    that leaves [execute], or no result within the fuel.
    [ReturnsOnMarker v]: the record with [success = False] whose error text
    is that of the exception [RaisedOnMarker v] stands for. *)
Inductive execute_result : Type :=
| Returns (r : SubgraphResult) (w : W) (c : C)
| Escapes (e : exn) (w : W) (c : C)
| NoResult
| ReturnsOnMarker (marker : value) (w : W) (c : C).

(** [SubgraphExecutor.execute]. *)
Definition execute (self : SubgraphExecutor) (initial_state : State)
    (inherit_keys return_keys : option (list string))
    (parent_state : option State) (fuel : nat) (w : W) (c : C)
  : execute_result :=
  let substate := inherit initial_state parent_state inherit_keys in
  match run (graph self) substate (checkpointer self) fuel w c with
  | Returned result w c =>
      match return_keys with
      | Some (k :: ks) =>
          Returns {| success := true;
                     result := Some (select result (k :: ks));
                     error := None |} w c
      | _ =>
          Returns {| success := true; result := Some result;
                     error := None |} w c
      end
  | Raised e w c =>
      if isinstance e "Exception" then
        Returns {| success := false; result := None;
                   error := Some (exn_msg e) |} w c
      else Escapes e w c
  | OutOfFuel => NoResult
  | RaisedOnMarker v w c => ReturnsOnMarker v w c
  end.

End Subgraph.

Arguments SubgraphExecutor : clear implicits.
Arguments execute_result : clear implicits.

End Subgraph.

(** ** middleware.py *)

Module Middleware.

Section Middleware.
Context {W : Type}.

(** The hooks of a middleware; each may have effects on the world.  The
    stack handles no exception: the hooks are taken to return, as their
    signatures say.  Python's [None] answer of [pre_tool_call] is [None],
    any dict (an empty one too) is [Some]. *)
Record AgentMiddleware : Type := {
  system_prompt_addition : string;
  pre_invoke : State -> W -> State * W;
  post_invoke : State -> W -> State * W;
  pre_tool_call : string -> State -> W -> option State * W;
  post_tool_call : string -> State -> value -> W -> value * W
}.

(** The base class: every hook is a no-op. *)
Definition base : AgentMiddleware :=
  {| system_prompt_addition := "";
     pre_invoke := fun state w => (state, w);
     post_invoke := fun state w => (state, w);
     pre_tool_call := fun _ _ w => (None, w);
     post_tool_call := fun _ _ result w => (result, w) |}.

Record MiddlewareStack : Type := { _middlewares : list AgentMiddleware }.

Definition add (self : MiddlewareStack) (middleware : AgentMiddleware)
  : MiddlewareStack :=
  {| _middlewares := _middlewares self ++ [middleware] |}.

(** A hook call, as an observer of the stack sees it: which middleware
    was called, with what, and what it answered. *)
Record invoke_call : Type := InvokeCall {
  invoked : AgentMiddleware;
  given : State;
  produced : State
}.

Record tool_call : Type := ToolCall {
  asked : AgentMiddleware;
  answer : option State
}.

(** [for mw in mws: state = await mw.pre_invoke(state)]. *)
Fixpoint pre_invoke_loop (mws : list AgentMiddleware) (state : State)
    (w : W) : State * W * list invoke_call :=
  match mws with
  | [] => (state, w, [])
  | mw :: rest =>
      let '(state', w) := pre_invoke mw state w in
      let '(final, w, log) := pre_invoke_loop rest state' w in
      (final, w, InvokeCall mw state state' :: log)
  end.

(** [for mw in mws: state = await mw.post_invoke(state)]. *)
Fixpoint post_invoke_loop (mws : list AgentMiddleware) (state : State)
    (w : W) : State * W * list invoke_call :=
  match mws with
  | [] => (state, w, [])
  | mw :: rest =>
      let '(state', w) := post_invoke mw state w in
      let '(final, w, log) := post_invoke_loop rest state' w in
      (final, w, InvokeCall mw state state' :: log)
  end.

Definition apply_pre_invoke (self : MiddlewareStack) (state : State)
    (w : W) : State * W * list invoke_call :=
  pre_invoke_loop (_middlewares self) state w.

(** [for mw in reversed(self._middlewares)]. *)
Definition apply_post_invoke (self : MiddlewareStack) (state : State)
    (w : W) : State * W * list invoke_call :=
  post_invoke_loop (rev (_middlewares self)) state w.

(** [apply_pre_tool_call]: the first result that is not [None]. *)
Fixpoint pre_tool_call_loop (mws : list AgentMiddleware)
    (tool_name : string) (args : State) (w : W)
  : option State * W * list tool_call :=
  match mws with
  | [] => (None, w, [])
  | mw :: rest =>
      let '(result, w) := pre_tool_call mw tool_name args w in
      match result with
      | Some r => (Some r, w, [ToolCall mw (Some r)])
      | None =>
          let '(final, w, log) :=
            pre_tool_call_loop rest tool_name args w in
          (final, w, ToolCall mw None :: log)
      end
  end.

Definition apply_pre_tool_call (self : MiddlewareStack)
    (tool_name : string) (args : State) (w : W)
  : option State * W * list tool_call :=
  pre_tool_call_loop (_middlewares self) tool_name args w.

(** A log of hook calls made one after the other: each call gets the state
    (and world) the previous call produced, and answers what the hook of its
    middleware computes; the chain starts from [state] and ends in the
    last state produced. *)
Inductive chained (hook : AgentMiddleware -> State -> W -> State * W)
  : State -> W -> list invoke_call -> State -> W -> Prop :=
| chained_nil state w : chained hook state w [] state w
| chained_cons mw state w state' w' log final w'' :
    hook mw state w = (state', w') ->
    chained hook state' w' log final w'' ->
    chained hook state w (InvokeCall mw state state' :: log) final w''.

(** A log of [pre_tool_call] hooks asked one after the other about the same
    tool call. *)
Inductive asked_in_turn (tool_name : string) (args : State)
  : W -> list tool_call -> W -> Prop :=
| asked_nil w : asked_in_turn tool_name args w [] w
| asked_cons mw w r w' log w'' :
    pre_tool_call mw tool_name args w = (r, w') ->
    asked_in_turn tool_name args w' log w'' ->
    asked_in_turn tool_name args w (ToolCall mw r :: log) w''.

End Middleware.

Arguments AgentMiddleware : clear implicits.
Arguments MiddlewareStack : clear implicits.
Arguments invoke_call : clear implicits.
Arguments tool_call : clear implicits.

End Middleware.

(** ** The handlers and graphs of the test suite *)

Module Examples.
Import Retry Graph Subgraph.

(** A handler that counts its calls and always raises [TypeError], as in
    [test_no_retry_on_unmatched_exception]. *)
Definition type_error_func : Handler (W := nat) :=
  fun state attempt_count =>
    (Fail (TypeError "Type error") state, S attempt_count).

(** Only [ValueError] is retried. *)
Definition only_value_error (max_attempts : Z) : RetryPolicy :=
  {| max_attempts := max_attempts; initial_interval := 0.01;
     backoff_multiplier := 2; max_interval := 30;
     retry_on := ["ValueError"] |}.

(** [failing_node]: always raises [ValueError]. *)
Definition failing_node : Handler (W := unit) :=
  fun state w => (Fail (ValueError "Intentional failure") state, w).

(** [increment_node]:
    [state["counter"] = state.get("counter", 0) + 1; return state]. *)
Definition increment_node : Handler (W := unit) :=
  fun state w =>
    match default (VInt 0) (state !! "counter") with
    | VInt z => (Ok (<["counter" := VInt (z + 1)]> state), w)
    | VBool b => (Ok (<["counter" := VInt (Z.b2z b + 1)]> state), w)
    | VFloat f => (Ok (<["counter" := VFloat (f + 1)]> state), w)
    | _ => (Fail (TypeError "unsupported operand type(s) for +") state, w)
    end.

(** A handler interrupted from outside: the exception is not an
    [Exception]. *)
Definition interrupted_node : Handler (W := unit) :=
  fun state w => (Fail (KeyboardInterrupt "") state, w).

(** [set_entry_point] on a graph that has the node. *)
Definition with_entry_point (g : StateGraph unit) (node : string)
  : StateGraph unit :=
  match set_entry_point g node with
  | inr g' => g'
  | inl _ => g
  end.

(** The graph of [test_node_failure_skip]. *)
Definition skip_graph : StateGraph unit :=
  with_entry_point
    (add_edge
       (add_edge
          (add_node (add_node empty "fail" failing_node None "skip")
                    "after" increment_node None "error")
          "fail" "after")
       "after" "END")
    "fail".

(** A graph whose only node has no outgoing edge. *)
Definition dead_end_graph : StateGraph unit :=
  with_entry_point (add_node empty "increment" increment_node None "error")
                   "increment".

(** One node, then the end. *)
Definition single_node_graph (h : Handler (W := unit))
  : StateGraph unit :=
  with_entry_point
    (add_edge (add_node empty "node" h None "error") "node" "END") "node".

(** [double_node]:
    [state["counter"] = state.get("counter", 0) * 2; return state]. *)
Definition double_node : Handler (W := unit) :=
  fun state w =>
    match default (VInt 0) (state !! "counter") with
    | VInt z => (Ok (<["counter" := VInt (z * 2)]> state), w)
    | VBool b => (Ok (<["counter" := VInt (Z.b2z b * 2)]> state), w)
    | VFloat f => (Ok (<["counter" := VFloat (f * 2)]> state), w)
    | VStr s => (Ok (<["counter" := VStr (s +:+ s)]> state), w)
    | VList l => (Ok (<["counter" := VList (l ++ l)]> state), w)
    | VTuple l => (Ok (<["counter" := VTuple (l ++ l)]> state), w)
    | _ => (Fail (TypeError "unsupported operand type(s) for *") state, w)
    end.

(** [flaky_func] of [test_retry_until_success]: the world is the counter
    [attempt_count]; the call fails until the counter reaches [succeed_at]. *)
Definition flaky_func (succeed_at : nat) : Handler (W := nat) :=
  fun state attempt_count =>
    let attempt_count := S attempt_count in
    if (attempt_count <? succeed_at)%nat
    then (Fail (ValueError "Temporary failure") state, attempt_count)
    else (Ok (<["success" := VBool true]> state), attempt_count).

(** The graph of [test_simple_linear_graph]. *)
Definition linear_graph : StateGraph unit :=
  with_entry_point
    (add_edge
       (add_edge
          (add_node (add_node empty "increment" increment_node None "error")
                    "double" double_node None "error")
          "increment" "double")
       "double" "END")
    "increment".

(** The graph of [test_node_failure_redirect]. *)
Definition redirect_graph : StateGraph unit :=
  with_entry_point
    (add_edge
       (add_edge
          (add_node (add_node empty "fail" failing_node None "recovery")
                    "recovery" increment_node None "error")
          "fail" "END")
       "recovery" "END")
    "fail".

(** The initial state of [test_checkpointing], with the counter at 0. *)
Definition checkpointed_state : State :=
  {["thread_id" := VStr "test-123"; "counter" := VInt 0]}.

End Examples.

(** ** More of retry.py, checkpoint.py and graph.py *)

Module RetrySchedule.
Import Retry.

(** The intervals [execute] sleeps for, were it to sleep [n] times starting
    from [interval]: each is the previous one times the multiplier, capped
    by [min] at [max_interval]. *)
Fixpoint backoff (self : RetryPolicy) (n : nat) (interval : float)
  : list float :=
  match n with
  | O => []
  | S n =>
      interval ::
      backoff self n
        (py_min (interval * backoff_multiplier self) (max_interval self))
  end.

(** The states a log records the handler to have been called on, in
    order. *)
Definition calls (log : list event) : list State :=
  omap (fun ev => match ev with Invoke s => Some s | Sleep _ => None end) log.

(** The log of calls on [states] with the sleeps [pauses] between them: a
    call, then, for each further call, a sleep and the call. *)
Fixpoint spaced (states : list State) (pauses : list float) : list event :=
  match states with
  | [] => []
  | s :: rest =>
      Invoke s ::
      match rest, pauses with
      | _ :: _, p :: pauses => Sleep p :: spaced rest pauses
      | _, _ => spaced rest pauses
      end
  end.

(** The exception [execute] raises of its own. *)
Definition no_result : exn :=
  RuntimeError "Retry loop completed without result or exception".

End RetrySchedule.

Module CheckpointerOps.
Import MemoryCheckpointer.

(** [exists], inherited from [Checkpointer]:
    [await self.load(thread_id) is not None]. *)
Definition exists_ (thread_id : string) (now : Z) (self : t)
  : (exn + bool) * t :=
  match load thread_id now self with
  | (inl e, self) => (inl e, self)
  | (inr (Some _), self) => (inr true, self)
  | (inr None, self) => (inr false, self)
  end.

(** A call of one of the methods, with the instant at which it happens. *)
Inductive op : Type :=
| Save (thread_id : string) (state : State) (now : Z)
| Load (thread_id : string) (now : Z)
| Exists (thread_id : string) (now : Z)
| Delete (thread_id : string)
| Clear.

(** The checkpointer and the heap after a call ([save] that raises leaves
    both as they were). *)
Definition apply (c : t * heap) (o : op) : t * heap :=
  match o with
  | Save thread_id state now =>
      match save thread_id state now (fst c) (snd c) with
      | inr c' => c'
      | inl _ => c
      end
  | Load thread_id now => (snd (load thread_id now (fst c)), snd c)
  | Exists thread_id now => (snd (exists_ thread_id now (fst c)), snd c)
  | Delete thread_id => (delete thread_id (fst c), snd c)
  | Clear => (clear (fst c), snd c)
  end.

(** A sequence of calls on a new [MemoryCheckpointer(ttl_seconds)]. *)
Definition after (ttl_seconds : Z) (ops : list op) : t * heap :=
  foldl apply (init ttl_seconds, []) ops.

(** Both dicts have the same keys and every stored reference denotes an
    object. *)
Definition consistent (c : t * heap) : Prop :=
  (forall thread_id,
     is_Some (_store (fst c) !! thread_id) <->
     is_Some (_timestamps (fst c) !! thread_id)) /\
  (forall thread_id r,
     _store (fst c) !! thread_id = Some r -> is_Some (deref (snd c) r)).

(** What [load] yields, read through the reference it returns. *)
Definition read (thread_id : string) (now : Z) (c : t * heap) : option State :=
  match load thread_id now (fst c) with
  | (inr (Some r), _) => deref (snd c) r
  | _ => None
  end.

(** The thread a call is about. *)
Definition op_thread (o : op) : option string :=
  match o with
  | Save thread_id _ _ | Load thread_id _ | Exists thread_id _
  | Delete thread_id => Some thread_id
  | Clear => None
  end.

End CheckpointerOps.

Module Validate.
Import Graph.

Section Validate.
Context {W : Type}.

(** [name in self.nodes]. *)
Definition has_node (self : StateGraph W) (n : string) : bool :=
  bool_decide (is_Some (nodes self !! n)).

(** The two tests on the entry point. *)
Definition validate_entry_point (self : StateGraph W) : list string :=
  match entry_point self with
  | None => ["No entry point set"]
  | Some _ => []
  end ++
  match entry_point self with
  | Some e =>
      if negb (String.eqb e "") && negb (has_node self e)
      then ["Entry point '" +:+ e +:+ "' not found in nodes"]
      else []
  | None => []
  end.

(** The two tests on one edge. *)
Definition validate_edge (self : StateGraph W) (edge : Edge) : list string :=
  (if negb (has_node self (source edge))
   then ["Edge source '" +:+ source edge +:+ "' not found in nodes"]
   else []) ++
  match target edge with
  | Some t =>
      if negb (String.eqb t "") && negb (String.eqb t "END")
         && negb (has_node self t)
      then ["Edge target '" +:+ t +:+ "' not found in nodes"]
      else []
  | None => []
  end.

(** The test on one node name: is it the source of some edge? *)
Definition validate_node (self : StateGraph W) (node_name : string)
  : list string :=
  if bool_decide (node_name ∈ source <$> edges self)
  then []
  else ["Node '" +:+ node_name +:+ "' has no outgoing edges"].

(** [get_node_names]: the keys of [self.nodes] (in the order of the map,
    which need not be the order of insertion Python keeps). *)
Definition get_node_names (self : StateGraph W) : list string :=
  fst <$> map_to_list (nodes self).

(** [validate]: the messages about the entry point, then about the edges in
    registration order, then about the nodes (in the order of
    [get_node_names]). *)
Definition validate (self : StateGraph W) : list string :=
  validate_entry_point self ++
  (edges self ≫= validate_edge self) ++
  (get_node_names self ≫= validate_node self).

(** No edge of the graph is conditional and no node redirects on failure:
    routing is decided by the fixed targets alone. *)
Definition static_routing (self : StateGraph W) : Prop :=
  Forall (fun edge => condition edge = None) (edges self) /\
  (forall n node, nodes self !! n = Some node ->
                  on_failure node = "error" \/ on_failure node = "skip").

(** The node to run next, if any, is a node of the graph. *)
Definition known (self : StateGraph W) (cn : option string) : Prop :=
  forall n, running cn = Some n -> is_Some (nodes self !! n).

End Validate.

End Validate.

(** ** More of subgraph.py and middleware.py; planning.py *)

Module SubgraphBuilder.
Import Retry Graph.

Section SubgraphBuilder.
Context {W : Type}.

(** The loop that copies the named nodes: a name the parent does not have
    raises; a node is added under the name it carries. *)
Fixpoint copy_nodes (parent : StateGraph W) (node_names : list string)
    (subgraph : StateGraph W) : exn + StateGraph W :=
  match node_names with
  | [] => inr subgraph
  | n :: rest =>
      match nodes parent !! n with
      | None =>
          inl (ValueError ("Node '" +:+ n +:+ "' not found in parent graph"))
      | Some node =>
          copy_nodes parent rest
            (add_node subgraph (name node) (handler node)
                      (retry_policy node) (on_failure node))
      end
  end.

(** The test an edge of the parent must pass to be copied. *)
Definition connects (node_names : list string) (edge : Edge) : bool :=
  bool_decide (source edge ∈ node_names) &&
  match target edge with
  | None => true
  | Some t => bool_decide (t ∈ node_names) || String.eqb t "END"
  end.

(** [edge.target or "END"]. *)
Definition target_or_END (edge : Edge) : string :=
  match target edge with
  | Some t => if String.eqb t "" then "END" else t
  | None => "END"
  end.

(** The loop that copies the edges, in the order of the parent. *)
Definition copy_edges (parent : StateGraph W) (node_names : list string)
    (subgraph : StateGraph W) : StateGraph W :=
  foldl (fun subgraph edge =>
           if connects node_names edge then
             match condition edge with
             | Some router => add_conditional_edge subgraph (source edge) router
             | None => add_edge subgraph (source edge) (target_or_END edge)
             end
           else subgraph)
        subgraph (edges parent).

(** [SubgraphBuilder(parent).extract(node_names, entry_point)]. *)
Definition extract (parent : StateGraph W) (node_names : list string)
    (entry_point : string) : exn + StateGraph W :=
  match copy_nodes parent node_names empty with
  | inl e => inl e
  | inr subgraph =>
      set_entry_point (copy_edges parent node_names subgraph) entry_point
  end.

(** The edge the loop registers for an edge of the parent. *)
Definition copied (edge : Edge) : Edge :=
  match condition edge with
  | Some router =>
      {| source := source edge; target := None; condition := Some router |}
  | None =>
      {| source := source edge; target := Some (target_or_END edge);
         condition := None |}
  end.

(** Every node is stored under the name it carries, as [add_node] does. *)
Definition keyed_by_name (self : StateGraph W) : Prop :=
  forall n node, nodes self !! n = Some node -> name node = n.

End SubgraphBuilder.
End SubgraphBuilder.

Module MiddlewareMore.
Import Middleware.

(** [sep.join(parts)]. *)
Fixpoint join (sep : string) (parts : list string) : string :=
  match parts with
  | [] => ""
  | [p] => p
  | p :: rest => p +:+ sep +:+ join sep rest
  end.

(** The separator ["\n\n"]. *)
Definition blank_line : string :=
  String (Ascii.ascii_of_nat 10) (String (Ascii.ascii_of_nat 10) "").

Section MiddlewareMore.
Context {W : Type}.

(** One call of a [post_tool_call] hook: what it was handed and what it
    handed back. *)
Record result_call : Type := ResultCall {
  transformer : AgentMiddleware W;
  received : value;
  returned : value
}.

(** [for mw in mws: result = await mw.post_tool_call(tool_name, args,
    result)]. *)
Fixpoint post_tool_call_loop (mws : list (AgentMiddleware W))
    (tool_name : string) (args : State) (result : value) (w : W)
  : value * W * list result_call :=
  match mws with
  | [] => (result, w, [])
  | mw :: rest =>
      let '(result', w) := post_tool_call mw tool_name args result w in
      let '(final, w, log) :=
        post_tool_call_loop rest tool_name args result' w in
      (final, w, ResultCall mw result result' :: log)
  end.

(** [apply_post_tool_call]: [for mw in reversed(self._middlewares)]. *)
Definition apply_post_tool_call (self : MiddlewareStack W)
    (tool_name : string) (args : State) (result : value) (w : W)
  : value * W * list result_call :=
  post_tool_call_loop (rev (_middlewares self)) tool_name args result w.

(** [system_prompt_additions]: the additions that are not empty, joined by
    blank lines. *)
Definition system_prompt_additions (self : MiddlewareStack W) : string :=
  join blank_line
    (_middlewares self ≫= fun mw =>
       if String.eqb (system_prompt_addition mw) "" then []
       else [system_prompt_addition mw]).

(** A log of [post_tool_call] hooks called one after the other, each on the
    result of the one before. *)
Inductive transformed (tool_name : string) (args : State)
  : value -> W -> list result_call -> value -> W -> Prop :=
| transformed_nil result w : transformed tool_name args result w [] result w
| transformed_cons mw result w result' w' log final w'' :
    post_tool_call mw tool_name args result w = (result', w') ->
    transformed tool_name args result' w' log final w'' ->
    transformed tool_name args result w (ResultCall mw result result' :: log)
                final w''.

End MiddlewareMore.

Arguments result_call : clear implicits.

End MiddlewareMore.

Module Planning.

Inductive TodoStatus : Type :=
  PENDING | IN_PROGRESS | COMPLETED | FAILED | SKIPPED.

(** [TodoStatus.X.value]. *)
Definition status_value (s : TodoStatus) : string :=
  match s with
  | PENDING => "pending"
  | IN_PROGRESS => "in_progress"
  | COMPLETED => "completed"
  | FAILED => "failed"
  | SKIPPED => "skipped"
  end.

(** The members of the enum, in the order of their definition. *)
Definition statuses : list TodoStatus :=
  [PENDING; IN_PROGRESS; COMPLETED; FAILED; SKIPPED].

Definition status_eqb (a b : TodoStatus) : bool :=
  String.eqb (status_value a) (status_value b).

(** [TodoStatus.X.name]. *)
Definition status_name (s : TodoStatus) : string :=
  match s with
  | PENDING => "PENDING"
  | IN_PROGRESS => "IN_PROGRESS"
  | COMPLETED => "COMPLETED"
  | FAILED => "FAILED"
  | SKIPPED => "SKIPPED"
  end.

(** [TodoStatus(v)]: [v] itself when it is a member of the enum, else the
    member whose value is [v], if any. *)
Definition status_of_value (v : value) : option TodoStatus :=
  match v with
  | VStr s => find (fun st => String.eqb (status_value st) s) statuses
  | VMember enum name =>
      if String.eqb enum "TodoStatus"
      then find (fun st => String.eqb (status_name st) name) statuses
      else None
  | _ => None
  end.

(** The dataclass [Todo].  The fields hold whatever they are given: the
    class checks no type. *)
Record Todo : Type := {
  id : value;
  description : value;
  status : TodoStatus;
  result : value;
  error : value;
  metadata : value
}.

(** [Todo.to_dict]. *)
Definition to_dict (self : Todo) : State :=
  {[ "id" := id self; "description" := description self;
     "status" := VStr (status_value (status self));
     "result" := result self; "error" := error self;
     "metadata" := metadata self ]}.

(** What [Todo.from_dict] raises: [KeyError(key)] from [data[key]], or the
    [ValueError] of [TodoStatus(v)] for a [v] that is no status. *)
Inductive from_dict_error : Type :=
| MissingKey (key : string)
| InvalidStatus (v : value).

(** [Todo.from_dict]. *)
Definition from_dict (data : State) : from_dict_error + Todo :=
  match data !! "id" with
  | None => inl (MissingKey "id")
  | Some i =>
      match data !! "description" with
      | None => inl (MissingKey "description")
      | Some d =>
          match data !! "status" with
          | None => inl (MissingKey "status")
          | Some sv =>
              match status_of_value sv with
              | None => inl (InvalidStatus sv)
              | Some st =>
                  inr {| id := i; description := d; status := st;
                         result := get data "result";
                         error := get data "error";
                         metadata := default (VDict []) (data !! "metadata") |}
              end
          end
      end
  end.

(** [PlanningLoop].  The todos of the list are distinct objects; a method
    that changes a todo changes the first one [get_todo] finds. *)
Record PlanningLoop : Type := {
  todos : list Todo;
  max_iterations : Z;
  _iteration : Z
}.

(** [PlanningLoop(max_iterations)]. *)
Definition init (max_iterations : Z) : PlanningLoop :=
  {| todos := []; max_iterations := max_iterations; _iteration := 0 |}.

(** [add_todo]; [hex] is what [uuid4().hex[:8]] yields at the call. *)
Definition add_todo (self : PlanningLoop) (hex description : string)
    (metadata : value) : Todo * PlanningLoop :=
  let todo :=
    {| id := VStr ("todo_" +:+ hex); description := VStr description;
       status := PENDING; result := VNone; error := VNone;
       metadata := if truthy metadata then metadata else VDict [] |} in
  (todo, {| todos := todos self ++ [todo];
            max_iterations := max_iterations self;
            _iteration := _iteration self |}).

(** [set_todos]: the list is emptied, then one [add_todo] per
    description, each with its own draw. *)
Definition set_todos (self : PlanningLoop)
    (descriptions : list (string * string)) : list Todo * PlanningLoop :=
  foldl (fun acc hd =>
           let '(todo, loop) := add_todo (snd acc) (fst hd) (snd hd) VNone in
           (fst acc ++ [todo], loop))
        ([], {| todos := []; max_iterations := max_iterations self;
                _iteration := _iteration self |})
        descriptions.

(** [todo.id == todo_id] for a string [todo_id]. *)
Definition has_id (todo_id : string) (todo : Todo) : bool :=
  match id todo with
  | VStr s => String.eqb s todo_id
  | _ => false
  end.

(** [get_todo]. *)
Definition get_todo (self : PlanningLoop) (todo_id : string) : option Todo :=
  find (has_id todo_id) (todos self).

(** [get_next_pending]. *)
Definition get_next_pending (self : PlanningLoop) : option Todo :=
  find (fun t => status_eqb (status t) PENDING) (todos self).

(** [get_in_progress]. *)
Definition get_in_progress (self : PlanningLoop) : list Todo :=
  List.filter (fun t => status_eqb (status t) IN_PROGRESS) (todos self).

(** The todo [get_todo] finds, changed in place by [change]. *)
Fixpoint change_first (todo_id : string) (change : Todo -> Todo)
    (l : list Todo) : list Todo :=
  match l with
  | [] => []
  | t :: rest =>
      if has_id todo_id t then change t :: rest
      else t :: change_first todo_id change rest
  end.

Definition with_todos (self : PlanningLoop) (l : list Todo) : PlanningLoop :=
  {| todos := l; max_iterations := max_iterations self;
     _iteration := _iteration self |}.

(** [mark_in_progress]. *)
Definition mark_in_progress (self : PlanningLoop) (todo_id : string)
  : PlanningLoop :=
  with_todos self
    (change_first todo_id
       (fun t => {| id := id t; description := description t;
                    status := IN_PROGRESS; result := result t;
                    error := error t; metadata := metadata t |})
       (todos self)).

(** [mark_complete]. *)
Definition mark_complete (self : PlanningLoop) (todo_id : string)
    (r : value) : PlanningLoop :=
  with_todos self
    (change_first todo_id
       (fun t => {| id := id t; description := description t;
                    status := COMPLETED; result := r;
                    error := error t; metadata := metadata t |})
       (todos self)).

(** [mark_failed]. *)
Definition mark_failed (self : PlanningLoop) (todo_id err : string)
  : PlanningLoop :=
  with_todos self
    (change_first todo_id
       (fun t => {| id := id t; description := description t;
                    status := FAILED; result := result t;
                    error := VStr err; metadata := metadata t |})
       (todos self)).

(** [mark_skipped]: the reason is recorded when it is given and not
    empty. *)
Definition mark_skipped (self : PlanningLoop) (todo_id : string)
    (reason : option string) : PlanningLoop :=
  with_todos self
    (change_first todo_id
       (fun t => {| id := id t; description := description t;
                    status := SKIPPED; result := result t;
                    error := match reason with
                             | Some r => if String.eqb r "" then error t
                                         else VStr r
                             | None => error t
                             end;
                    metadata := metadata t |})
       (todos self)).

(** A status that counts as done. *)
Definition terminal (s : TodoStatus) : bool :=
  status_eqb s COMPLETED || status_eqb s FAILED || status_eqb s SKIPPED.

(** [all_complete]. *)
Definition all_complete (self : PlanningLoop) : bool :=
  match todos self with
  | [] => true
  | _ => forallb (fun t => terminal (status t)) (todos self)
  end.

(** [any_failed]. *)
Definition any_failed (self : PlanningLoop) : bool :=
  existsb (fun t => status_eqb (status t) FAILED) (todos self).

(** [can_continue]. *)
Definition can_continue (self : PlanningLoop) : bool :=
  if (_iteration self >=? max_iterations self)%Z then false
  else negb (all_complete self).

(** [increment_iteration]. *)
Definition increment_iteration (self : PlanningLoop) : Z * PlanningLoop :=
  ((_iteration self + 1)%Z,
   {| todos := todos self; max_iterations := max_iterations self;
      _iteration := (_iteration self + 1)%Z |}).

(** [to_state] and [from_state]. *)
Definition to_state (self : PlanningLoop) : list State :=
  to_dict <$> todos self.

Fixpoint from_dicts (state : list State) : from_dict_error + list Todo :=
  match state with
  | [] => inr []
  | data :: rest =>
      match from_dict data with
      | inl e => inl e
      | inr t =>
          match from_dicts rest with
          | inl e => inl e
          | inr ts => inr (t :: ts)
          end
      end
  end.

Definition from_state (state : list State) (max_iterations : Z)
  : from_dict_error + PlanningLoop :=
  match from_dicts state with
  | inl e => inl e
  | inr ts => inr {| todos := ts; max_iterations := max_iterations;
                     _iteration := 0 |}
  end.

(** [summary]: every status value starts at 0 and each todo adds one to the
    count of its status. *)
Definition summary (self : PlanningLoop) : gmap string nat :=
  foldl (fun summary t => alter S (status_value (status t)) summary)
        (list_to_map ((fun st => (status_value st, 0%nat)) <$> statuses))
        (todos self).

(** [__len__]. *)
Definition len (self : PlanningLoop) : nat := List.length (todos self).

(** A call of a method that changes the loop. *)
Inductive op : Type :=
| AddTodo (hex description : string) (metadata : value)
| SetTodos (descriptions : list (string * string))
| MarkInProgress (todo_id : string)
| MarkComplete (todo_id : string) (r : value)
| MarkFailed (todo_id err : string)
| MarkSkipped (todo_id : string) (reason : option string)
| IncrementIteration.

Definition apply (self : PlanningLoop) (o : op) : PlanningLoop :=
  match o with
  | AddTodo hex description metadata =>
      snd (add_todo self hex description metadata)
  | SetTodos descriptions => snd (set_todos self descriptions)
  | MarkInProgress todo_id => mark_in_progress self todo_id
  | MarkComplete todo_id r => mark_complete self todo_id r
  | MarkFailed todo_id err => mark_failed self todo_id err
  | MarkSkipped todo_id reason => mark_skipped self todo_id reason
  | IncrementIteration => snd (increment_iteration self)
  end.

(** How many todos of a list have a given status. *)
Definition count (st : TodoStatus) (l : list Todo) : nat :=
  List.length (List.filter (fun t => status_eqb (status t) st) l).

(** How many todos are pending. *)
Definition pending (self : PlanningLoop) : nat := count PENDING (todos self).

(** The todo a marking method is about, and the status it sets. *)
Definition marks (o : op) : option (string * TodoStatus) :=
  match o with
  | MarkInProgress todo_id => Some (todo_id, IN_PROGRESS)
  | MarkComplete todo_id _ => Some (todo_id, COMPLETED)
  | MarkFailed todo_id _ => Some (todo_id, FAILED)
  | MarkSkipped todo_id _ => Some (todo_id, SKIPPED)
  | _ => None
  end.

(** How many of the calls are [increment_iteration]. *)
Definition increments (ops : list op) : nat :=
  List.length
    (List.filter
       (fun o => match o with IncrementIteration => true | _ => false end)
       ops).

End Planning.

Module PlanningMore.
Import Planning.

(** The todo [add_todo] makes for a description, with the default
    metadata. *)
Definition fresh (hd : string * string) : Todo :=
  {| id := VStr ("todo_" +:+ fst hd); description := VStr (snd hd);
     status := PENDING; result := VNone; error := VNone;
     metadata := VDict [] |}.

End PlanningMore.

Module MoreExamples.
Import Retry.


(** A handler that raises, on every call, a [ValueError] of a subclass
    whose instances are falsy (it defines [__bool__] to return [False]). *)
Definition falsy_fail : Handler (W := nat) :=
  fun state calls =>
    (Fail {| exn_class := "Quiet";
             exn_bases := ["ValueError"; "Exception"; "BaseException"];
             exn_msg := "quiet"; exn_bool := false |} state, S calls).

End MoreExamples.

(** * Theorems *)

(** ** Facts about the [json] round trip *)

Module JsonFacts.
Import Json.

(** What [json.loads(json.dumps(v))] returns, when [json.dumps] accepts
    [v]. *)
Lemma dumps_loads (v : value) (j : json) :
  dumps v = Some j -> loads j = normalize v.
Proof. unfold normalize. by intros ->. Qed.

Lemma key_eqb_refl (k : key) : key_eqb k k = true.
Proof.
  destruct k as [|b|z|s|n]; cbn; [done|by destruct b|..].
  - apply Z.eqb_refl.
  - apply String.eqb_refl.
  - apply Nat.eqb_refl.
Qed.

Lemma key_eqb_sym (a b : key) : key_eqb a b = key_eqb b a.
Proof.
  destruct a as [|x|x|x|x], b as [|y|y|y|y]; cbn; try done.
  - by destruct x, y.
  - apply Z.eqb_sym.
  - apply String.eqb_sym.
  - apply Nat.eqb_sym.
Qed.

(** Only a string is the same key as a string. *)
Lemma key_eqb_str (k : key) (s : string) :
  key_eqb k (KStr s) = true <-> k = KStr s.
Proof.
  destruct k as [|b|z|t|n]; cbn; try (split; [discriminate|done]).
  rewrite String.eqb_eq. split; congruence.
Qed.

(** Items with distinct keys have no key twice. *)
Lemma distinct_keys_NoDup (d : list (key * value)) :
  distinct_keys d = true -> NoDup (fst <$> d).
Proof.
  induction d as [|kx d IH]; cbn; [constructor|].
  intros [Hhead Htail]%andb_true_iff. constructor; [|by apply IH].
  intros (ky & Heq & Hin)%list_elem_of_fmap.
  apply negb_true_iff in Hhead.
  assert (existsb (fun ky => key_eqb (fst ky) (fst kx)) d = true) as Hex;
    [|congruence].
  apply existsb_exists. exists ky. split; [by apply list_elem_of_In|].
  rewrite Heq. apply key_eqb_refl.
Qed.

(** Under a key it holds, a dict with distinct keys has the value of that
    item. *)
Lemma dict_get_distinct (d : list (key * value)) (k : key) (x : value) :
  distinct_keys d = true -> (k, x) ∈ d -> dict_get d k = Some x.
Proof.
  unfold dict_get. induction d as [|[k0 x0] d IH]; cbn; [by inversion 2|].
  intros [Hhead Htail]%andb_true_iff [[= -> ->]|Hin]%elem_of_cons.
  - by rewrite key_eqb_refl.
  - destruct (key_eqb k0 k) eqn:Hk; [|by apply IH].
    apply negb_true_iff in Hhead.
    assert (existsb (fun ky => key_eqb (fst ky) k0) d = true) as Hex;
      [|congruence].
    apply existsb_exists. exists (k, x). split; [by apply list_elem_of_In|].
    cbn. by rewrite key_eqb_sym.
Qed.

(** A member whose name the dict does not have goes to the end. *)
Lemma dict_set_new (name : string) (v : value) (d : list (key * value)) :
  KStr name ∉ fst <$> d -> dict_set name v d = d ++ [(KStr name, v)].
Proof.
  intros Hnew. unfold dict_set.
  destruct (existsb _ d) eqn:Hex; [|done].
  apply existsb_exists in Hex as (kx & Hin%list_elem_of_In & Hk%key_eqb_str).
  destruct Hnew. apply list_elem_of_fmap. eauto.
Qed.

Lemma foldl_dict_set (members : list (string * value))
    (d : list (key * value)) :
  NoDup (fst <$> members) ->
  (forall name, name ∈ fst <$> members -> KStr name ∉ fst <$> d) ->
  foldl (fun d nv => dict_set (fst nv) (snd nv) d) d members =
  d ++ (prod_map KStr id <$> members).
Proof.
  revert d. induction members as [|[name v] members IH]; intros d Hnames Hnew.
  - cbn. by rewrite app_nil_r.
  - cbn in *. apply NoDup_cons in Hnames as [Hname Hnames].
    rewrite dict_set_new by (apply Hnew; left).
    rewrite IH; [by rewrite <-app_assoc|done|].
    intros n Hn. rewrite fmap_app, elem_of_app. cbn.
    intros [Hd|Hhead%list_elem_of_singleton].
    + by apply (Hnew n); [right|].
    + by simplify_eq.
Qed.

(** An object whose members have distinct names is read back member by
    member. *)
Lemma object_pairs_distinct (members : list (string * value)) :
  NoDup (fst <$> members) ->
  object_pairs members = prod_map KStr id <$> members.
Proof.
  intros Hnames. unfold object_pairs.
  rewrite foldl_dict_set; [done|done|]. intros ? _. cbn. by inversion 1.
Qed.

(** The members written for a dict whose keys are strings. *)
Lemma dumps_items_loads (d : list (key * value)) (m : list (string * json)) :
  Forall (fun kx => forall j, dumps (snd kx) = Some j -> loads j = snd kx) d ->
  forallb (fun kx => is_str (fst kx)) d = true ->
  mapM (fun kx => name ← key_name (fst kx); pair name <$> dumps (snd kx)) d
    = Some m ->
  prod_map KStr id <$> (prod_map id loads <$> m) = d.
Proof.
  intros Hd. revert m. induction Hd as [|[k x] d Hx _ IH]; intros m Hstr Hm.
  - apply mapM_Some in Hm. by inversion Hm.
  - cbn in Hstr. apply andb_true_iff in Hstr as [Hk Hstr].
    apply mapM_Some in Hm. inversion Hm as [|? [name j] ? m' Hj Hrest]; subst.
    destruct k; try discriminate. cbn in Hj.
    destruct (dumps x) as [jx|] eqn:Hjx; simplify_eq/=.
    f_equal; [by rewrite (Hx _ Hjx)|]. apply IH; [done|].
    by apply mapM_Some.
Qed.

(** The round trip gives back unchanged a value that holds no tuple and
    whose dicts have string keys only. *)
Lemma dumps_loads_stable (v : value) (j : json) :
  well_formed v = true -> tuple_free v = true -> str_keys v = true ->
  dumps v = Some j -> loads j = v.
Proof.
  revert j.
  induction v as [| | | | |l IH|l IH|d IH| |] using value_nested_ind;
    intros j Hwf Hfree Hkeys Hj; cbn in Hj; simplify_option_eq;
    try reflexivity; try discriminate.
  - cbn in *. f_equal.
    match goal with H : mapM _ l = Some ?js |- _ =>
      rename H into Hjs; revert js Hjs end.
    induction IH as [|x l Hx _ IHl]; intros js Hjs.
    + apply mapM_Some in Hjs. by inversion Hjs.
    + apply mapM_Some in Hjs. inversion Hjs as [|? jx ? js' Hjx Hrest]; subst.
      cbn in Hwf, Hfree, Hkeys. apply andb_true_iff in Hwf as [? ?].
      apply andb_true_iff in Hfree as [? ?].
      apply andb_true_iff in Hkeys as [? ?].
      cbn. f_equal; [by apply Hx|]. apply IHl; try done. by apply mapM_Some.
  - cbn in *. f_equal. apply andb_true_iff in Hwf as [Hdistinct Hwf].
    match goal with H : mapM _ d = Some ?m |- _ =>
      rename H into Hm; rename m into members end.
    assert (prod_map KStr id <$> (prod_map id loads <$> members) = d)
      as Hitems.
    { eapply dumps_items_loads; [| |exact Hm].
      - clear Hm Hdistinct. induction IH as [|[k x] d Hx _ IHd]; [constructor|].
        cbn in *. apply andb_true_iff in Hwf as [? ?].
        apply andb_true_iff in Hfree as [? ?].
        apply andb_true_iff in Hkeys as [[? ?]%andb_true_iff ?].
        constructor; [|by apply IHd]. cbn. intros j ?. by apply Hx.
      - clear -Hkeys. induction d as [|kx d IHd]; [done|]. cbn in *.
        apply andb_true_iff in Hkeys as [[-> _]%andb_true_iff ?]. by apply IHd. }
    rewrite object_pairs_distinct; [done|].
    apply distinct_keys_NoDup in Hdistinct. rewrite <-Hitems in Hdistinct.
    rewrite <-list_fmap_compose in Hdistinct.
    apply (NoDup_fmap_1 KStr). by rewrite <-list_fmap_compose.
Qed.

(** Such a value is its own normal form. *)
Lemma normalize_stable (v : value) :
  well_formed v = true -> tuple_free v = true -> str_keys v = true ->
  normalize v = v.
Proof.
  intros Hwf Hfree Hkeys. unfold normalize.
  destruct (dumps v) as [j|] eqn:Hj; [|done]. by apply dumps_loads_stable.
Qed.

Lemma all2_refl {A : Type} (rel : A -> A -> bool) (l : list A) :
  Forall (fun x => rel x x = true) l -> all2 rel l l = true.
Proof. induction 1 as [|x l Hx _ IH]; cbn; [done|by rewrite Hx, IH]. Qed.

(** A value without NaN is equal to itself, as Python compares. *)
Lemma py_eq_refl (v : value) :
  well_formed v = true -> nan_free v = true -> py_eq v v = true.
Proof.
  induction v as [|b|z|f|s|l IH|l IH|d IH|c n|n] using value_nested_ind;
    intros Hwf Hnan; cbn in *.
  - done.
  - by destruct b.
  - apply Z.eqb_refl.
  - unfold is_nan in Hnan. by rewrite negb_involutive in Hnan.
  - apply String.eqb_refl.
  - apply all2_refl. induction IH as [|x l Hx _ IHl]; [constructor|].
    cbn in *. apply andb_true_iff in Hwf as [? ?].
    apply andb_true_iff in Hnan as [? ?]. constructor; [by apply Hx|by apply IHl].
  - apply all2_refl. induction IH as [|x l Hx _ IHl]; [constructor|].
    cbn in *. apply andb_true_iff in Hwf as [? ?].
    apply andb_true_iff in Hnan as [? ?]. constructor; [by apply Hx|by apply IHl].
  - rewrite Nat.eqb_refl. cbn. apply andb_true_iff in Hwf as [Hdistinct Hwf].
    apply forallb_forall. intros [k x] Hin%list_elem_of_In. cbn.
    rewrite (dict_get_distinct d k x Hdistinct Hin).
    rewrite Forall_forall in IH. apply (IH (k, x) Hin); cbn.
    + rewrite forallb_forall in Hwf. by apply (Hwf (k, x)), list_elem_of_In.
    + rewrite forallb_forall in Hnan. by apply (Hnan (k, x)), list_elem_of_In.
  - by rewrite !String.eqb_refl.
  - apply Nat.eqb_refl.
Qed.

End JsonFacts.

(** ** [MemoryCheckpointer]: round trip, isolation and aliasing *)

Module CheckpointFacts.
Import Json JsonFacts MemoryCheckpointer.

(** Every value [_serialize] keeps is one [json.dumps] accepts. *)
Lemma _serialize_serializable (state : State) (k : string) (v : value) :
  _serialize state !! k = Some v -> is_Some (dumps v).
Proof.
  unfold _serialize. intros [_ Hv]%map_lookup_filter_Some. cbn in Hv.
  unfold serializable in Hv. destruct (dumps v); [eauto | discriminate].
Qed.

(** Hence [json.dumps] accepts the dict [_serialize] builds. *)
Lemma dumps_state__serialize (state : State) :
  is_Some (dumps_state (_serialize state)).
Proof.
  unfold dumps_state, of_state. cbn.
  apply fmap_is_Some, mapM_is_Some, Forall_forall.
  intros [k v] ([s x] & [= -> ->] & Hin%elem_of_map_to_list)%list_elem_of_fmap.
  cbn. apply fmap_is_Some. by eapply _serialize_serializable.
Qed.

(** The members written for the items of a state dict are read back as the
    items with their values normalised. *)
Lemma dumps_items_state (items : list (string * value))
    (m : list (string * json)) :
  mapM (fun kx => name ← key_name (fst kx); pair name <$> dumps (snd kx))
       (prod_map KStr id <$> items) = Some m ->
  prod_map id loads <$> m = prod_map id normalize <$> items.
Proof.
  revert m. induction items as [|[k v] items IH]; intros m Hm.
  - apply mapM_Some in Hm. by inversion Hm.
  - apply mapM_Some in Hm. cbn in Hm.
    inversion Hm as [|? [name j] ? m' Hj Hrest]; subst. cbn in Hj.
    destruct (dumps v) as [jv|] eqn:Hjv; simplify_eq/=.
    f_equal; [by rewrite (dumps_loads _ _ Hjv)|]. apply IH. by apply mapM_Some.
Qed.

(** The items of a loaded dict whose keys are strings. *)
Lemma omap_state_item (items : list (string * value)) :
  omap state_item (prod_map KStr id <$> items) = items.
Proof.
  induction items as [|[k v] items IH]; [done|]. cbn. by rewrite IH.
Qed.

(** Decoding the document written for a state yields the state with every
    value normalised. *)
Lemma dumps_loads_state (state : State) (doc : json) :
  dumps_state state = Some doc ->
  loads_state doc = Some (normalize <$> state).
Proof.
  unfold dumps_state, loads_state, of_state. cbn. intros Hdoc.
  destruct (mapM _ _) as [m|] eqn:Hm; simplify_eq/=.
  rewrite (dumps_items_state _ _ Hm).
  rewrite object_pairs_distinct.
  - by rewrite omap_state_item, list_to_map_fmap, list_to_map_to_list.
  - rewrite <-list_fmap_compose.
    rewrite (list_fmap_ext _ fst (map_to_list state))
      by (by intros ? [? ?] ?).
    apply NoDup_fst_map_to_list.
Qed.

(** [save] always succeeds, and stores a new object whose contents are
    the serializable part of the state, normalised. *)
Lemma save_inr (thread_id : string) (state : State) (now : Z) (self : t)
    (h : heap) :
  save thread_id state now self h =
  inr ({| _store := <[thread_id := List.length h]> (_store self);
          _timestamps := <[thread_id := now]> (_timestamps self);
          _ttl := _ttl self |},
       h ++ [normalize <$> _serialize state]).
Proof.
  unfold save.
  destruct (dumps_state__serialize state) as [doc Hdoc]. rewrite Hdoc.
  by rewrite (dumps_loads_state _ _ Hdoc).
Qed.

(** Within the time-to-live, [load] after [save] reads the snapshot. *)
Lemma save_then_load_within_ttl (thread_id : string) (state : State)
    (now later : Z) (self : t) (h : heap) :
  (later - now <= _ttl self)%Z ->
  save_then_load thread_id state now later self h =
  Some (normalize <$> _serialize state).
Proof.
  intros Httl. unfold save_then_load. rewrite save_inr.
  unfold load. cbn. rewrite !lookup_insert_eq.
  destruct (Z.gtb_spec (later - now) (_ttl self)) as [Hgt|_]; [lia|].
  unfold deref. by rewrite lookup_app_r, Nat.sub_diag.
Qed.

(** The contents of the snapshot, key by key. *)
Lemma snapshot_lookup (state : State) (k : string) :
  (normalize <$> _serialize state) !! k = state !! k ≫= persisted.
Proof.
  rewrite lookup_fmap. unfold _serialize, persisted.
  rewrite map_lookup_filter. destruct (state !! k) as [v|]; [|done]. cbn.
  destruct (serializable v) eqn:Hv.
  - by rewrite option_guard_True.
  - rewrite option_guard_False; [done | congruence].
Qed.

(** The snapshot is a new object: a later write through any reference that
    existed before the [save] leaves it as it was. *)
Lemma save_isolated_from_live_state (thread_id : string) (state : State)
    (now : Z) (self self' : t) (h h' : heap) (live : loc) (k : string)
    (v : value) (r : loc) :
  live < List.length h ->
  save thread_id state now self h = inr (self', h') ->
  _store self' !! thread_id = Some r ->
  deref (setitem live k v h') r = deref h' r.
Proof.
  intros Hlive Hsave Hr. rewrite save_inr in Hsave. simplify_eq/=.
  rewrite lookup_insert_eq in Hr. simplify_eq.
  unfold deref, setitem. apply list_lookup_alter_ne. lia.
Qed.

(** [load] hands out the very reference [_store] holds. *)
Lemma load_returns_stored_reference (thread_id : string) (now : Z)
    (self self' : t) (r : loc) :
  load thread_id now self = (inr (Some r), self') ->
  _store self !! thread_id = Some r /\ self' = self.
Proof.
  unfold load. intros Hload.
  destruct (_store self !! thread_id) as [l|]; [|by simplify_eq].
  destruct (_timestamps self !! thread_id) as [ts|]; [|by simplify_eq].
  destruct (now - ts >? _ttl self)%Z; by simplify_eq.
Qed.

(** C6, as stated, fails: a tuple is serializable, and it comes back from
    the round trip as a list, which Python does not hold equal to the tuple.
    The state [{"t": (1, 2)}] is loaded as [{"t": [1, 2]}]. *)
Lemma round_trip_tuple_counterexample :
  let state : State := {["t" := VTuple [VInt 1; VInt 2]]} in
  let loaded : State := {["t" := VList [VInt 1; VInt 2]]} in
  serializable (VTuple [VInt 1; VInt 2]) = true /\
  save_then_load "thread-1" state 0 0 (init 3600) [] = Some loaded /\
  loaded !! "t" <> state !! "t" /\
  py_eq (VList [VInt 1; VInt 2]) (VTuple [VInt 1; VInt 2]) = false.
Proof.
  split; [reflexivity|]. split; [|split; by vm_compute].
  rewrite save_then_load_within_ttl by (cbn; lia). by vm_compute.
Qed.

(** The other two ways in which C6, as stated, fails.  A dict key that is
    not a string comes back as a string: [{"x": {1: "a"}}] is loaded as
    [{"x": {"1": "a"}}].  A NaN comes back as a NaN, which is equal to
    nothing. *)
Lemma round_trip_key_and_nan_examples :
  let keyed : State := {["x" := VDict [(KInt 1, VStr "a")]]} in
  let loaded : State := {["x" := VDict [(KStr "1", VStr "a")]]} in
  let with_nan : State := {["x" := VFloat nan]} in
  (serializable (VDict [(KInt 1, VStr "a")]) = true /\
   save_then_load "thread-1" keyed 0 0 (init 3600) [] = Some loaded /\
   py_eq (VDict [(KStr "1", VStr "a")]) (VDict [(KInt 1, VStr "a")]) = false) /\
  (serializable (VFloat nan) = true /\
   save_then_load "thread-1" with_nan 0 0 (init 3600) [] = Some with_nan /\
   py_eq (VFloat nan) (VFloat nan) = false).
Proof.
  split; (split; [reflexivity|]); (split; [|by vm_compute]);
    rewrite save_then_load_within_ttl by (cbn; lia); by vm_compute.
Qed.

(** C6 (amended): within the time-to-live, [save] succeeds whatever the
    state holds, and the following [load] yields, under each key whose value
    is serializable, that value in the form the JSON round trip gives it
    (tuples become lists, dict keys become strings), and nothing under the
    other keys; when the serializable values hold no tuple, no dict key that
    is not a string and no NaN, what it yields is equal, as Python compares
    values, to the state restricted to its serializable keys. *)
Theorem checkpoint_round_trip (thread_id : string) (state : State)
    (now later : Z) (self : t) (h : heap) :
  (later - now <= _ttl self)%Z ->
  (exists saved, save thread_id state now self h = inr saved) /\
  exists loaded : State,
    save_then_load thread_id state now later self h = Some loaded /\
    (forall k, loaded !! k = state !! k ≫= persisted) /\
    (forall k v, state !! k = Some v -> serializable v = false ->
                 loaded !! k = None) /\
    ((forall k v, state !! k = Some v -> serializable v = true ->
                  well_formed v = true /\ tuple_free v = true /\
                  str_keys v = true /\ nan_free v = true) ->
     forall k,
       option_Forall2 (fun x y => py_eq x y = true) (loaded !! k)
         (state !! k ≫= fun v => if serializable v then Some v else None)).
Proof.
  intros Httl. split; [rewrite save_inr; eauto|].
  exists (normalize <$> _serialize state).
  split; [by apply save_then_load_within_ttl|].
  split; [apply snapshot_lookup|]. split.
  - intros k v Hk Hv. rewrite snapshot_lookup, Hk. cbn.
    unfold persisted. by rewrite Hv.
  - intros Hstable k. rewrite snapshot_lookup.
    destruct (state !! k) as [v|] eqn:Hk; [|constructor]. cbn.
    unfold persisted. destruct (serializable v) eqn:Hv; [|constructor].
    destruct (Hstable k v Hk Hv) as (Hwf & Hfree & Hkeys & Hnan).
    constructor. rewrite normalize_stable by done. by apply py_eq_refl.
Qed.

Lemma checkpoint_round_trip_witness :
  (exists saved,
     save "thread-1" {["key" := VStr "value"; "number" := VInt 42]} 0
          (init 3600) [] = inr saved) /\
  exists loaded : State,
    save_then_load "thread-1" {["key" := VStr "value"; "number" := VInt 42]}
                   0 60 (init 3600) [] = Some loaded /\
    (forall k, loaded !! k =
               ({["key" := VStr "value"; "number" := VInt 42]} : State) !! k
               ≫= persisted) /\
    (forall k v,
       ({["key" := VStr "value"; "number" := VInt 42]} : State) !! k = Some v ->
       serializable v = false -> loaded !! k = None) /\
    ((forall k v,
        ({["key" := VStr "value"; "number" := VInt 42]} : State) !! k = Some v ->
        serializable v = true ->
        well_formed v = true /\ tuple_free v = true /\
        str_keys v = true /\ nan_free v = true) ->
     forall k,
       option_Forall2 (fun x y => py_eq x y = true) (loaded !! k)
         (({["key" := VStr "value"; "number" := VInt 42]} : State) !! k
          ≫= fun v => if serializable v then Some v else None)).
Proof.
  apply (checkpoint_round_trip "thread-1"
           {["key" := VStr "value"; "number" := VInt 42]} 0 60 (init 3600) []).
  cbn. lia.
Defined.

(** Whatever was saved, a write through the reference [load] returns is a
    write to the stored snapshot: the following [load] returns the same
    reference and reads the written value. *)
Lemma write_through_loaded_reference (thread_id : string) (state : State)
    (now later : Z) (self : t) (h : heap) (k : string) (v : value) :
  (later - now <= _ttl self)%Z ->
  exists self' h' r,
    save thread_id state now self h = inr (self', h') /\
    load thread_id later self' = (inr (Some r), self') /\
    deref (setitem r k v h') r =
    Some (<[k := v]> (normalize <$> _serialize state)).
Proof.
  intros Httl. eexists _, _, _. split; [apply save_inr|].
  unfold load. cbn. rewrite !lookup_insert_eq.
  destruct (Z.gtb_spec (later - now) (_ttl self)) as [Hgt|_]; [lia|].
  split; [reflexivity|]. unfold deref, setitem.
  rewrite list_lookup_alter, lookup_app_r, Nat.sub_diag by done.
  by rewrite decide_True.
Qed.

(** C3: the code at the input on which it departs from the claim.  After
    [save], a first [load] returns a reference; a write through it
    ([loaded["counter"] = 99]) is what a second [load] then reads: the stored
    snapshot itself was changed. *)
Theorem load_hands_out_the_stored_snapshot :
  exists (self : t) (h : heap) (r : loc),
    save "thread-1" {["counter" := VInt 1]} 0 (init 3600) [] = inr (self, h) /\
    load "thread-1" 0 self = (inr (Some r), self) /\
    deref h r = Some {["counter" := VInt 1]} /\
    deref (setitem r "counter" (VInt 99) h) r = Some {["counter" := VInt 99]}.
Proof.
  eexists _, _, _. split; [by rewrite save_inr|].
  split; [reflexivity|]. split; by vm_compute.
Qed.

End CheckpointFacts.

(** ** [RetryPolicy.execute] *)

Module RetryFacts.
Import Retry Examples.

Section Execute.
Context {W : Type}.
Implicit Types (self : RetryPolicy) (func : Handler (W := W)).

(** C10: with [max_attempts <= 0] the loop body never runs: the handler is
    not called, nothing is slept, and [execute] raises the [RuntimeError]
    of its last line; no state is returned and no failure of the handler
    can surface. *)
Theorem execute_without_attempts self func (state : State) (w : W) :
  (max_attempts self <= 0)%Z ->
  execute self func state w =
  (Fail (RuntimeError "Retry loop completed without result or exception")
        state, w, []).
Proof.
  intros Hmax. unfold execute.
  by replace (Z.to_nat (max_attempts self)) with 0%nat by lia.
Qed.

(** C5 (amended): when the policy allows at least one attempt and the
    first call of the handler raises a failure that no class of [retry_on]
    matches, [execute] calls the handler exactly once, sleeps for no
    backoff, and raises that same failure. *)
Theorem execute_propagates_ineligible_failure self func (state state' : State)
    (w w' : W) (e : exn) :
  (1 <= max_attempts self)%Z ->
  func state w = (Fail e state', w') ->
  catches (retry_on self) e = false ->
  exists log,
    execute self func state w = (Fail e state', w', log) /\
    log = [Invoke state] /\ invocations log = 1%nat /\ sleeps log = [].
Proof.
  intros Hmax Hfunc Hcatch. exists [Invoke state]. split; [|done].
  unfold execute.
  destruct (Z.to_nat (max_attempts self)) as [|n] eqn:Hn; [lia|].
  cbn. by rewrite Hfunc, Hcatch.
Qed.

End Execute.

Lemma execute_without_attempts_witness :
  execute (only_value_error 0) type_error_func ∅ 0%nat =
  (Fail (RuntimeError "Retry loop completed without result or exception")
        ∅, 0%nat, []).
Proof.
  apply (execute_without_attempts (only_value_error 0) type_error_func ∅ 0%nat).
  cbn. lia.
Defined.

Lemma execute_propagates_ineligible_failure_witness :
  exists log,
    execute (only_value_error 3) type_error_func ∅ 0%nat =
    (Fail (TypeError "Type error") ∅, 1%nat, log) /\
    log = [Invoke ∅] /\ invocations log = 1%nat /\ sleeps log = [].
Proof.
  apply (execute_propagates_ineligible_failure
           (only_value_error 3) type_error_func ∅ ∅ 0%nat 1%nat
           (TypeError "Type error")).
  - cbn. lia.
  - reflexivity.
  - reflexivity.
Defined.

(** C5, as stated for every policy, fails: with [max_attempts = 0] the
    handler, which would raise a [TypeError] that [retry_on] does not list,
    is not called at all, and what [execute] raises is a [RuntimeError]. *)
Lemma ineligible_failure_counterexample :
  catches (retry_on (only_value_error 0)) (TypeError "Type error") = false /\
  type_error_func ∅ 0%nat = (Fail (TypeError "Type error") ∅, 1%nat) /\
  exists e log,
    execute (only_value_error 0) type_error_func ∅ 0%nat =
    (Fail e ∅, 0%nat, log) /\
    invocations log = 0%nat /\ e <> TypeError "Type error".
Proof.
  split; [reflexivity|]. split; [reflexivity|].
  eexists _, _. split; [reflexivity|]. split; [reflexivity|]. discriminate.
Qed.

End RetryFacts.

(** ** [StateGraph]: routing, checkpoints per step, [add_node] *)

Module GraphFacts.
Import Checkpoint Retry Graph Examples.

Section Graph.
Context {W C : Type}.
Implicit Types (self : StateGraph W) (node : Node W) (state : State).
Implicit Types (ck : Checkpointer C) (w : W) (c : C).

(** No edge leaves [current]: [_get_next_node] finds nothing. *)
Lemma first_edge_no_source (es : list Edge) (current : string) state :
  Forall (fun edge => source edge <> current) es ->
  first_edge es current state = None.
Proof.
  induction 1 as [|edge es Hne _ IH]; [reflexivity|]. cbn.
  apply String.eqb_neq in Hne. by rewrite Hne.
Qed.

(** The first edge that leaves [current] is conditional and its router
    returns no node. *)
Lemma first_edge_router_none (pre post : list Edge) (edge : Edge)
    (router : State -> option string) (current : string) state :
  Forall (fun edge => source edge <> current) pre ->
  source edge = current ->
  condition edge = Some router ->
  router state = None ->
  first_edge (pre ++ edge :: post) current state = None.
Proof.
  intros Hpre Hsrc Hcond Hrouter.
  induction Hpre as [|e pre Hne _ IH]; cbn.
  - apply String.eqb_eq in Hsrc. by rewrite Hsrc, Hcond.
  - apply String.eqb_neq in Hne. by rewrite Hne.
Qed.

(** C2 (amended): when the node just executed has no outgoing edge, or the
    first edge that leaves it is conditional and its router returns no node,
    the loop ends and [run] returns the state normally, after the checkpoint
    of that step; no error is signalled. *)
Theorem loop_returns_when_no_next_node self (checkpointer : option (Checkpointer C))
    (thread_id : value) (fuel : nat) (current : string) node
    state state' w w' c c' :
  running (Some current) = Some current ->
  nodes self !! current = Some node ->
  try_node checkpointer thread_id node (mark_running current state) w c =
    Proceed state' w' c' ->
  (Forall (fun edge => source edge <> current) (edges self) \/
   exists pre edge post router,
     edges self = pre ++ edge :: post /\
     Forall (fun edge => source edge <> current) pre /\
     source edge = current /\ condition edge = Some router /\
     router state' = None) ->
  loop self checkpointer thread_id (S fuel) (Some current) state w c =
  Returned state' w' (save_checkpoint checkpointer thread_id state' c').
Proof.
  intros Hrun Hnode Htry Hedges.
  assert (_get_next_node self current state' = None) as Hnext.
  { unfold _get_next_node.
    destruct Hedges as [Hnone|(pre & edge & post & router & -> & ? & ? & ? & ?)].
    - by apply first_edge_no_source.
    - by eapply first_edge_router_none. }
  cbn [loop]. rewrite Hrun. unfold step. rewrite Hnode, Htry, Hnext.
  destruct fuel; reflexivity.
Qed.

(** A successful step saves the state marked ["success"]. *)
Lemma successful_step_checkpoints self ck (thread_id : value)
    (current : string) node state state' w w' c :
  nodes self !! current = Some node ->
  _execute_node node (mark_running current state) w = (Ok state', w') ->
  truthy thread_id = true ->
  let succeeded := <["_node_status" := VStr "success"]> state' in
  step self (Some ck) thread_id current state w c =
  Next (_get_next_node self current succeeded) succeeded w'
       (save ck thread_id succeeded c).
Proof.
  intros Hnode Hexec Htid succeeded. unfold step, try_node.
  rewrite Hnode, Hexec. cbn. by rewrite Htid.
Qed.

(** C1 (amended): with a checkpointer and a thread id, a step whose node
    fails under the policy ["skip"] does save a checkpoint, exactly one, of
    the state marked skipped with the error text recorded, as a successful
    step does; a step whose node fails under the policy ["error"] saves
    the state marked failed and raises; a step whose node fails under a
    redirect policy saves nothing and leaves the checkpoint store as it
    was. *)
Theorem failed_step_checkpoints self ck (thread_id : value) (current : string)
    node state state' w w' c (e : exn) :
  nodes self !! current = Some node ->
  _execute_node node (mark_running current state) w = (Fail e state', w') ->
  isinstance e "Exception" = true ->
  truthy thread_id = true ->
  let failed :=
    <["_error" := VStr (exn_msg e)]>
      (<["_node_status" := VStr "failed"]> state') in
  let skipped := <["_node_status" := VStr "skipped"]> failed in
  (on_failure node = "skip" ->
   step self (Some ck) thread_id current state w c =
   Next (_get_next_node self current skipped) skipped w'
        (save ck thread_id skipped c)) /\
  (on_failure node = "error" ->
   step self (Some ck) thread_id current state w c =
   Raise e w' (save ck thread_id failed c)) /\
  (on_failure node <> "error" -> on_failure node <> "skip" ->
   step self (Some ck) thread_id current state w c =
   Next (Some (on_failure node)) failed w' c).
Proof.
  intros Hnode Hexec Hexn Htid failed skipped. split; [|split].
  - intros Hskip. unfold step, try_node.
    rewrite Hnode, Hexec, Hexn, Hskip. cbn. by rewrite Htid.
  - intros Herror. unfold step, try_node.
    rewrite Hnode, Hexec, Hexn, Herror. cbn. by rewrite Htid.
  - intros Herror%String.eqb_neq Hskip%String.eqb_neq. unfold step, try_node.
    by rewrite Hnode, Hexec, Hexn, Herror, Hskip.
Qed.

(** [add_node] on a name leaves every other name alone. *)
Lemma add_nodes_lookup (calls : list (add_node_call W)) self (n : string) :
  nodes (add_nodes self calls) !! n =
  match last_call n calls with
  | Some call => Some (node_of_call call)
  | None => nodes self !! n
  end.
Proof.
  revert self. induction calls as [|call calls IH] using rev_ind; intros self.
  - reflexivity.
  - unfold add_nodes, last_call in *.
    rewrite foldl_app, filter_app, filter_cons, filter_nil.
    destruct (decide (call_name call = n)) as [<-|Hne]; cbn [foldl add_node nodes].
    + rewrite last_snoc. by rewrite lookup_insert_eq.
    + rewrite app_nil_r. rewrite lookup_insert_ne by done. apply IH.
Qed.

(** C9: [add_node] never fails; called with a name the graph already has,
    it replaces the node under that name (handler, retry policy and failure
    policy are those of the call) and the graph has no more nodes than
    before; after any sequence of calls each name maps to the node of the
    last call that named it (or to what it mapped to before the calls, when
    none did). *)
Theorem add_node_replaces self (n : string) (h : Handler (W := W))
    (policy : option RetryPolicy) (failure : string)
    (calls : list (add_node_call W)) :
  nodes (add_node self n h policy failure) !! n =
    Some {| name := n; handler := h; retry_policy := policy;
            on_failure := failure |} /\
  (forall n', n' <> n ->
     nodes (add_node self n h policy failure) !! n' = nodes self !! n') /\
  (is_Some (nodes self !! n) ->
     size (nodes (add_node self n h policy failure)) = size (nodes self)) /\
  (forall n',
     nodes (add_nodes self calls) !! n' =
     match last_call n' calls with
     | Some call => Some (node_of_call call)
     | None => nodes self !! n'
     end).
Proof.
  split; [apply lookup_insert_eq|]. split.
  - intros n' Hne. cbn. by rewrite lookup_insert_ne.
  - split; [|intros n'; apply add_nodes_lookup].
    intros [old Hold]. cbn.
    rewrite <-(insert_delete_id (nodes self) n old) at 2 by done.
    rewrite <-insert_delete_eq.
    by rewrite !map_size_insert_None by apply lookup_delete_eq.
Qed.

End Graph.

(** C1, as stated, fails: in the graph of [test_node_failure_skip], run
    with a [MemoryCheckpointer] and a thread id, the step of the node
    ["fail"] (policy ["skip"], handler raising [ValueError]) saves a
    checkpoint: the store, which held nothing for the thread before the
    step, holds after it a snapshot marked ["skipped"]. *)
Lemma skip_step_checkpoint_counterexample :
  let ck := MemoryCheckpointer.as_checkpointer 0 in
  let c0 := (MemoryCheckpointer.init 3600, []) in
  on_failure <$> nodes skip_graph !! "fail" = Some "skip" /\
  fst (load ck (VStr "test-123") c0) = None /\
  exists state' c' snapshot,
    step skip_graph (Some ck) (VStr "test-123") "fail" checkpointed_state
         tt c0 = Next (Some "after") state' tt c' /\
    fst (load ck (VStr "test-123") c') = Some snapshot /\
    snapshot !! "_node_status" = Some (VStr "skipped") /\
    snapshot !! "_error" = Some (VStr "Intentional failure").
Proof.
  split; [by vm_compute|]. split; [by vm_compute|].
  eexists _, _, _. split; [by vm_compute|]. split; by vm_compute.
Qed.

Lemma failed_step_checkpoints_witness :
  let ck := MemoryCheckpointer.as_checkpointer 0 in
  let c0 := (MemoryCheckpointer.init 3600, []) in
  let skipped : State :=
    <["_node_status" := VStr "skipped"]>
      (<["_error" := VStr "Intentional failure"]>
         (<["_node_status" := VStr "failed"]>
            (mark_running "fail" checkpointed_state))) in
  step skip_graph (Some ck) (VStr "test-123") "fail" checkpointed_state tt c0 =
  Next (_get_next_node skip_graph "fail" skipped) skipped tt
       (save ck (VStr "test-123") skipped c0).
Proof.
  intros ck c0 skipped.
  refine (proj1 (failed_step_checkpoints skip_graph ck (VStr "test-123")
                   "fail"
                   {| name := "fail"; handler := failing_node;
                      retry_policy := None; on_failure := "skip" |}
                   checkpointed_state
                   (mark_running "fail" checkpointed_state) tt tt c0
                   (ValueError "Intentional failure") _ _ _ _) _);
    reflexivity.
Defined.

(** C2, as stated, fails: a graph whose only node has no outgoing edge runs
    that node once and returns the resulting state; no error is raised. *)
Lemma dead_end_counterexample :
  edges dead_end_graph = [] /\
  exists final : State,
    run dead_end_graph {["counter" := VInt 0]} None 10 tt tt =
    Returned final tt tt /\
    final !! "counter" = Some (VInt 1) /\
    final !! "_node_status" = Some (VStr "success").
Proof.
  split; [reflexivity|]. eexists. split; [by vm_compute|]. split; by vm_compute.
Qed.

Lemma loop_returns_when_no_next_node_witness :
  exists final : State,
    loop (C := unit) dead_end_graph None VNone 1 (Some "increment")
         {["counter" := VInt 0]} tt tt = Returned final tt tt.
Proof.
  eexists.
  eapply (loop_returns_when_no_next_node dead_end_graph None VNone 0
            "increment"
            {| name := "increment"; handler := increment_node;
               retry_policy := None; on_failure := "error" |}).
  - reflexivity.
  - reflexivity.
  - reflexivity.
  - left. constructor.
Defined.

End GraphFacts.

(** ** [SubgraphExecutor.execute] *)

Module SubgraphFacts.
Import Checkpoint Graph Subgraph Examples.

Section Subgraph.
Context {W C : Type}.
Implicit Types (self : SubgraphExecutor W C) (state : State).

(** The comprehension over [return_keys], with any starting dict. *)
Lemma select_foldl_lookup (result filtered : State) (keys : list string)
    (k : string) :
  foldl (fun filtered k =>
           match result !! k with
           | Some _ => <[k := get result k]> filtered
           | None => filtered
           end) filtered keys !! k =
  if decide (k ∈ keys)
  then match result !! k with Some v => Some v | None => filtered !! k end
  else filtered !! k.
Proof.
  revert filtered. induction keys as [|k' keys IH]; intros filtered; cbn.
  - by rewrite decide_False by set_solver.
  - rewrite IH. unfold get.
    destruct (decide (k = k')) as [->|Hne].
    + rewrite (decide_True (P := k' ∈ k' :: keys)) by set_solver.
      destruct (result !! k') as [v|] eqn:Hk'; cbn.
      * destruct (decide (k' ∈ keys)); [done | by rewrite lookup_insert_eq].
      * by destruct (decide (k' ∈ keys)).
    + destruct (decide (k ∈ keys)) as [Hin|Hnin].
      * rewrite (decide_True (P := k ∈ k' :: keys)) by set_solver.
        destruct (result !! k) as [v|]; [done|].
        destruct (result !! k'); [by rewrite lookup_insert_ne|done].
      * rewrite (decide_False (P := k ∈ k' :: keys));
          [|rewrite elem_of_cons; intros [?|?]; done].
        destruct (result !! k'); [by rewrite lookup_insert_ne|done].
Qed.

(** [select] is the restriction of the result to the listed keys. *)
Lemma select_lookup (result : State) (keys : list string) (k : string) :
  select result keys !! k = if decide (k ∈ keys) then result !! k else None.
Proof.
  unfold select. rewrite select_foldl_lookup, lookup_empty.
  destruct (decide (k ∈ keys)); [|done]. by destruct (result !! k).
Qed.

(** C4 (amended): whatever the nested run does, [execute] turns every
    failure that is an [Exception] into the record with [success = false]
    and the error text, so that no such failure leaves [execute]; only an
    exception outside [Exception] passes through.  When the nested run
    returns, [execute] returns [success = true] with the final state
    restricted to [return_keys] if that list is given and not empty, and
    with the whole final state otherwise. *)
Theorem execute_contains_failures self (initial_state : State)
    (inherit_keys return_keys : option (list string))
    (parent_state : option State) (fuel : nat) (w : W) (c : C) :
  let outcome :=
    execute self initial_state inherit_keys return_keys parent_state fuel w c in
  (forall e w' c', outcome = Escapes e w' c' -> isinstance e "Exception" = false) /\
  match run (graph self) (inherit initial_state parent_state inherit_keys)
            (checkpointer self) fuel w c with
  | Raised e w' c' =>
      if isinstance e "Exception"
      then outcome = Returns {| success := false; result := None;
                                error := Some (exn_msg e) |} w' c'
      else outcome = Escapes e w' c'
  | Returned final w' c' =>
      exists r : State,
        outcome = Returns {| success := true; result := Some r;
                             error := None |} w' c' /\
        match return_keys with
        | Some (key :: keys) =>
            forall k, r !! k =
                      if decide (k ∈ key :: keys) then final !! k else None
        | _ => r = final
        end
  | OutOfFuel => outcome = NoResult
  | RaisedOnMarker v w' c' => outcome = ReturnsOnMarker v w' c'
  end.
Proof.
  intros outcome. subst outcome. unfold execute.
  destruct (run _ _ _ _ _ _) as [final w' c'|e w' c'| |v w' c'].
  - split.
    + intros e w'' c'' Hesc. by destruct return_keys as [[|]|].
    + destruct return_keys as [[|key keys]|]; eexists; split; try reflexivity.
      intros k. apply select_lookup.
  - destruct (isinstance e "Exception") eqn:He; split; try reflexivity.
    + intros ? ? ? ?. discriminate.
    + intros ? ? ? ?. by simplify_eq.
  - split; [intros ? ? ? ?; discriminate | reflexivity].
  - split; [intros ? ? ? ?; discriminate | reflexivity].
Qed.

End Subgraph.

(** C4, as stated, fails on two inputs.  A handler interrupted by an
    exception that is not an [Exception] ([KeyboardInterrupt]): the
    exception leaves [execute].  And [return_keys = []], a list that is
    given but empty: the result is the whole final state, not the state
    restricted to no key. *)
Lemma execute_counterexample :
  (exists e,
     execute (C := unit)
             {| graph := single_node_graph interrupted_node;
                checkpointer := None |}
             ∅ None None None 10 tt tt = Escapes e tt tt) /\
  (exists r : State,
     execute (C := unit)
             {| graph := single_node_graph increment_node;
                checkpointer := None |}
             {["counter" := VInt 5]} None (Some []) None 10 tt tt =
     Returns {| success := true; result := Some r; error := None |} tt tt /\
     r !! "counter" = Some (VInt 6)).
Proof.
  split.
  - eexists. by vm_compute.
  - eexists. split; by vm_compute.
Qed.

End SubgraphFacts.

(** ** [MiddlewareStack]: order of the hooks *)

Module MiddlewareFacts.
Import Middleware.

Section Middleware.
Context {W : Type}.
Implicit Types (self : MiddlewareStack W) (mw : AgentMiddleware W).
Implicit Types (mws : list (AgentMiddleware W)) (state : State) (w : W).

(** The loop over pre-invocation hooks calls the middlewares of the list
    from first to last, chaining the states. *)
Lemma pre_invoke_loop_chained mws state w :
  exists final w' log,
    pre_invoke_loop mws state w = (final, w', log) /\
    invoked <$> log = mws /\
    chained pre_invoke state w log final w'.
Proof.
  revert state w. induction mws as [|mw mws IH]; intros state w; cbn.
  - eexists _, _, _. split; [reflexivity|]. split; [reflexivity|constructor].
  - destruct (pre_invoke mw state w) as [state1 w1] eqn:Hmw.
    destruct (IH state1 w1) as (final & w' & log & -> & Hlog & Hchain).
    eexists _, _, _. split; [reflexivity|]. split; [by cbn; rewrite Hlog|].
    by econstructor.
Qed.

Lemma post_invoke_loop_chained mws state w :
  exists final w' log,
    post_invoke_loop mws state w = (final, w', log) /\
    invoked <$> log = mws /\
    chained post_invoke state w log final w'.
Proof.
  revert state w. induction mws as [|mw mws IH]; intros state w; cbn.
  - eexists _, _, _. split; [reflexivity|]. split; [reflexivity|constructor].
  - destruct (post_invoke mw state w) as [state1 w1] eqn:Hmw.
    destruct (IH state1 w1) as (final & w' & log & -> & Hlog & Hchain).
    eexists _, _, _. split; [reflexivity|]. split; [by cbn; rewrite Hlog|].
    by econstructor.
Qed.

(** C7: [apply_pre_invoke] calls the pre-invocation hooks of the
    middlewares in registration order, and [apply_post_invoke] the
    post-invocation hooks in the reverse of it; in both, each hook receives
    the state produced by the one before and the result is the state
    produced by the last.  With [A] then [B] registered: [A] before [B] on
    the way in, [B] before [A] on the way out. *)
Theorem invoke_hooks_order self state w :
  (exists final w' log,
     apply_pre_invoke self state w = (final, w', log) /\
     invoked <$> log = _middlewares self /\
     chained pre_invoke state w log final w') /\
  (exists final w' log,
     apply_post_invoke self state w = (final, w', log) /\
     invoked <$> log = rev (_middlewares self) /\
     chained post_invoke state w log final w') /\
  (forall A B : AgentMiddleware W,
     invoked <$> snd (apply_pre_invoke {| _middlewares := [A; B] |} state w)
       = [A; B] /\
     invoked <$> snd (apply_post_invoke {| _middlewares := [A; B] |} state w)
       = [B; A]).
Proof.
  split; [apply pre_invoke_loop_chained|].
  split; [apply post_invoke_loop_chained|].
  intros A B. split.
  - destruct (pre_invoke_loop_chained [A; B] state w)
      as (final & w' & log & Hrun & Hlog & _).
    unfold apply_pre_invoke. cbn [_middlewares]. by rewrite Hrun.
  - destruct (post_invoke_loop_chained [B; A] state w)
      as (final & w' & log & Hrun & Hlog & _).
    unfold apply_post_invoke. cbn [_middlewares rev app]. by rewrite Hrun.
Qed.

(** C8: [apply_pre_tool_call] asks the pre-tool-call hooks in registration
    order; it returns the answer of the first hook that does not answer
    [None], and the hooks registered after that one are not called; when
    every hook answers [None], all of them have been asked and the result is
    [None]: the tool call proceeds. *)
Theorem pre_tool_call_first_answer self (tool_name : string) (args : State) w :
  exists result w' log rest,
    apply_pre_tool_call self tool_name args w = (result, w', log) /\
    _middlewares self = (asked <$> log) ++ rest /\
    asked_in_turn tool_name args w log w' /\
    match result with
    | Some r =>
        exists before mw,
          log = before ++ [ToolCall mw (Some r)] /\
          Forall (fun call => answer call = None) before
    | None => rest = [] /\ Forall (fun call => answer call = None) log
    end.
Proof.
  unfold apply_pre_tool_call. generalize (_middlewares self). clear self.
  intros mws. revert w. induction mws as [|mw mws IH]; intros w; cbn.
  - exists None, w, [], []. repeat split; constructor.
  - destruct (pre_tool_call mw tool_name args w) as [[r|] w1] eqn:Hmw.
    + exists (Some r), w1, [ToolCall mw (Some r)], mws.
      repeat split; [by repeat econstructor|].
      exists [], mw. split; [reflexivity|constructor].
    + destruct (IH w1) as (result & w' & log & rest & -> & Hmws & Hturn & Hres).
      exists result, w', (ToolCall mw None :: log), rest.
      split; [reflexivity|]. split; [by cbn; rewrite <-Hmws|].
      split; [by econstructor|].
      destruct result as [r|].
      * destruct Hres as (before & mw' & -> & Hbefore).
        exists (ToolCall mw None :: before), mw'.
        split; [reflexivity|by constructor].
      * destruct Hres as [-> Hall]. split; [reflexivity|by constructor].
Qed.

End Middleware.

End MiddlewareFacts.

(** ** The embedding against the test suite *)

Module TestSuite.
Import Retry Graph Subgraph Examples.

(** [test_simple_linear_graph]: [(1 + 1) * 2]. *)
Example test_simple_linear_graph :
  exists final : State,
    run linear_graph {["counter" := VInt 1]} None 10 tt tt =
    Returned final tt tt /\
    final !! "counter" = Some (VInt 4) /\
    final !! "_node_status" = Some (VStr "success").
Proof. eexists. split; [by vm_compute|]. split; by vm_compute. Qed.

(** [test_node_failure_skip]. *)
Example test_node_failure_skip :
  exists final : State,
    run skip_graph {["counter" := VInt 0]} None 10 tt tt =
    Returned final tt tt /\
    final !! "counter" = Some (VInt 1) /\
    final !! "_node_status" = Some (VStr "success").
Proof. eexists. split; [by vm_compute|]. split; by vm_compute. Qed.

(** [test_node_failure_redirect]. *)
Example test_node_failure_redirect :
  exists final : State,
    run redirect_graph {["counter" := VInt 0]} None 10 tt tt =
    Returned final tt tt /\
    final !! "counter" = Some (VInt 1) /\
    final !! "_error" = Some (VStr "Intentional failure").
Proof. eexists. split; [by vm_compute|]. split; by vm_compute. Qed.

(** [test_node_failure_error]: the failure leaves [run]. *)
Example test_node_failure_error :
  run (single_node_graph failing_node) ∅ None 10 tt tt =
  Raised (ValueError "Intentional failure") tt tt.
Proof. by vm_compute. Qed.

(** [test_checkpointing]: the checkpoint holds the incremented counter. *)
Example test_checkpointing :
  let ck := MemoryCheckpointer.as_checkpointer 0 in
  exists (final : State) c (saved : State),
    run (single_node_graph increment_node) checkpointed_state (Some ck) 10 tt
        (MemoryCheckpointer.init 3600, []) = Returned final tt c /\
    final !! "counter" = Some (VInt 1) /\
    fst (Checkpoint.load ck (VStr "test-123") c) = Some saved /\
    saved !! "counter" = Some (VInt 1).
Proof.
  eexists _, _, _. split; [by vm_compute|]. split; [by vm_compute|].
  split; by vm_compute.
Qed.

(** [test_retry_until_success]: two calls, one sleep. *)
Example test_retry_until_success :
  exists (result : State) log,
    Retry.execute (only_value_error 3) (flaky_func 2) ∅ 0%nat =
    (Ok result, 2%nat, log) /\
    result !! "success" = Some (VBool true) /\
    invocations log = 2%nat /\ sleeps log = [0.01%float].
Proof. eexists _, _. split; [by vm_compute|]. by vm_compute. Qed.

(** [test_exhaust_retries]: the last failure is raised. *)
Example test_exhaust_retries :
  exists log,
    Retry.execute (only_value_error 2) (flaky_func 5) ∅ 0%nat =
    (Fail (ValueError "Temporary failure") ∅, 2%nat, log) /\
    invocations log = 2%nat.
Proof. eexists. split; by vm_compute. Qed.

(** [test_skip_non_serializable]. *)
Example test_skip_non_serializable :
  exists loaded : State,
    MemoryCheckpointer.save_then_load "thread-1"
      {["serializable" := VStr "value"; "non_serializable" := VObject 0]}
      0 0 (MemoryCheckpointer.init 3600) [] = Some loaded /\
    loaded !! "serializable" = Some (VStr "value") /\
    loaded !! "non_serializable" = None.
Proof. eexists. split; [by vm_compute|]. split; by vm_compute. Qed.

(** [test_failure_isolation]. *)
Example test_failure_isolation :
  Subgraph.execute (C := unit)
          {| graph := single_node_graph failing_node; checkpointer := None |}
          ∅ None None None 10 tt tt =
  Returns {| success := false; result := None;
             error := Some "Intentional failure" |} tt tt.
Proof. by vm_compute. Qed.

(** [test_return_keys]. *)
Example test_return_keys :
  exists r : State,
    Subgraph.execute (C := unit)
            {| graph := linear_graph; checkpointer := None |}
            {["counter" := VInt 5; "extra" := VStr "data"]}
            None (Some ["counter"]) None 10 tt tt =
    Returns {| success := true; result := Some r; error := None |} tt tt /\
    r !! "counter" = Some (VInt 12) /\ r !! "extra" = None.
Proof. eexists. split; [by vm_compute|]. split; by vm_compute. Qed.

End TestSuite.

(** ** Facts about binary64 comparisons *)

Module FloatFacts.

(** Comparing a number with itself finds it equal, unless it is NaN. *)
Lemma SFcompare_refl (x : spec_float) :
  SFcompare x x = None \/ SFcompare x x = Some Eq.
Proof.
  destruct x as [s|s| |s m e]; cbn; [by right|by destruct s; right|by left|].
  right. f_equal. destruct s; rewrite Z.compare_refl, Pos.compare_cont_refl;
    done.
Qed.

(** Comparing the other way round gives the opposite answer. *)
Lemma SFcompare_antisym (x y : spec_float) :
  SFcompare y x = CompOpp <$> SFcompare x y.
Proof.
  destruct x as [s|s| |s m e], y as [t|t| |t n f]; cbn;
    try done; try (by destruct s); try (by destruct t);
    try (by destruct s, t).
  destruct s, t; cbn; try done; f_equal;
    rewrite (Z.compare_antisym e f); destruct (e ?= f)%Z; cbn; try done;
    rewrite ?Pos.compare_cont_antisym; reflexivity.
Qed.

Lemma Prim2SF_not_nan (x : float) :
  is_nan x = false -> Prim2SF x <> S754_nan.
Proof.
  unfold Prim2SF. intros ->.
  destruct (is_zero x); [done|]. destruct (is_infinity x); [done|].
  destruct (Z.frexp x) as [r e]. destruct (shr_fexp _ _ _ _ _) as [shr e'].
  by destruct (shr_m shr).
Qed.

(** No number is less than itself. *)
Lemma ltb_irrefl (x : float) : (x <? x)%float = false.
Proof.
  rewrite ltb_spec. unfold SFltb.
  by destruct (SFcompare_refl (Prim2SF x)) as [-> | ->].
Qed.

(** Of two numbers, neither of them NaN, the one that is not greater is
    less or equal. *)
Lemma not_ltb_leb (x y : float) :
  is_nan x = false -> is_nan y = false ->
  (y <? x)%float = false -> (x <=? y)%float = true.
Proof.
  intros Hx%Prim2SF_not_nan Hy%Prim2SF_not_nan.
  rewrite ltb_spec, leb_spec. unfold SFltb, SFleb.
  rewrite (SFcompare_antisym (Prim2SF y) (Prim2SF x)).
  destruct (SFcompare (Prim2SF y) (Prim2SF x)) as [[| |]|] eqn:Hc; cbn;
    try done.
  destruct (Prim2SF x), (Prim2SF y); cbn in Hc; try done.
Qed.

End FloatFacts.

(** ** Facts about the retry schedule *)

Module RetryScheduleFacts.
Import Retry RetrySchedule Examples MoreExamples FloatFacts.

Section Execute.
Context {W : Type}.
Implicit Types (self : RetryPolicy) (func : Handler (W := W)).

(** The counts of one run of the loop, [remaining] iterations before its
    end, and the shape of its log. *)
Lemma attempts_counts self func (remaining : nat) (attempt : Z)
    (interval : float) (last : option exn) (state : State) (w : W) :
  (attempt + Z.of_nat remaining = max_attempts self)%Z ->
  forall o w' log,
    attempts self func remaining attempt interval last state w = (o, w', log) ->
    (invocations log <= remaining)%nat /\
    ((1 <= remaining)%nat -> (1 <= invocations log)%nat) /\
    sleeps log = backoff self (invocations log - 1) interval /\
    log = spaced (calls log) (backoff self (invocations log - 1) interval).
Proof.
  revert attempt interval last state w.
  induction remaining as [|n IH]; intros attempt interval last state w Hinv o w' log.
  - cbn. destruct last as [e|]; [destruct (exn_bool e)|];
      intros; simplify_eq; cbn; repeat split; lia.
  - cbn [attempts]. destruct (func state w) as [[result|e state'] w1].
    + intros; simplify_eq; cbn; repeat split; lia.
    + destruct (catches (retry_on self) e); [|intros; simplify_eq; cbn; repeat split; lia].
      destruct (Z.ltb_spec attempt (max_attempts self - 1)) as [Hlt|Hge].
      * destruct (attempts self func n _ _ _ _ _) as [[o1 w2] log1] eqn:Hrec.
        intros; simplify_eq.
        apply IH in Hrec as (Hle & Hpos & Hsl & Hshape); [|lia].
        assert (1 <= invocations log1)%nat as Hone by (apply Hpos; lia).
        change (invocations (Invoke state :: Sleep interval :: log1))
          with (S (invocations log1)).
        change (sleeps (Invoke state :: Sleep interval :: log1))
          with (interval :: sleeps log1).
        change (calls (Invoke state :: Sleep interval :: log1))
          with (state :: calls log1).
        assert (List.length (calls log1) = invocations log1) as Hlen
          by reflexivity.
        destruct (invocations log1) as [|k]; [lia|].
        replace (S (S k) - 1)%nat with (S k) by lia.
        replace (S k - 1)%nat with k in * by lia.
        cbn [backoff]. rewrite Hsl.
        split; [lia|]. split; [lia|]. split; [done|].
        destruct (calls log1) as [|s1 states]; [done|].
        rewrite Hshape at 1. reflexivity.
      * assert (n = 0)%nat as -> by lia. cbn.
        destruct (exn_bool e); intros; simplify_eq; cbn; repeat split; lia.
Qed.

(** The counts of a whole [execute]. *)
Lemma execute_log self func (state : State) (w : W) :
  (invocations (snd (execute self func state w))
   <= Z.to_nat (max_attempts self))%nat /\
  sleeps (snd (execute self func state w)) =
    backoff self (invocations (snd (execute self func state w)) - 1)
            (initial_interval self) /\
  snd (execute self func state w) =
    spaced (calls (snd (execute self func state w)))
      (backoff self (invocations (snd (execute self func state w)) - 1)
               (initial_interval self)).
Proof.
  unfold execute.
  destruct (attempts _ _ _ _ _ _ _ _) as [[o w'] log] eqn:Hrun. cbn [snd].
  destruct (Z.le_gt_cases (max_attempts self) 0) as [Hle|Hgt].
  - replace (Z.to_nat (max_attempts self)) with 0%nat in * by lia.
    cbn in Hrun. simplify_eq. by cbn.
  - apply attempts_counts in Hrun as (Hle & _ & Hsl & Hshape); [|lia]. done.
Qed.

(** A schedule of [n] sleeps has [n] intervals. *)
Lemma backoff_length self (n : nat) (interval : float) :
  List.length (backoff self n interval) = n.
Proof.
  revert interval. induction n as [|n IH]; intros q; cbn; [done|].
  by rewrite IH.
Qed.

(** X1: the log of [execute] is a call of the handler, then, for each
    further call, one sleep and the call: a sleep lies between two
    consecutive calls and nowhere else.  There are at most [max_attempts]
    calls, and the intervals slept for are those of the backoff schedule of
    the policy, whatever the handler does. *)
Theorem execute_calls_and_sleeps self func (state : State) (w : W) :
  let log := snd (execute self func state w) in
  log = spaced (calls log)
               (backoff self (invocations log - 1) (initial_interval self)) /\
  (invocations log <= Z.to_nat (max_attempts self))%nat /\
  List.length (calls log) = invocations log /\
  List.length (sleeps log) = (invocations log - 1)%nat /\
  sleeps log = backoff self (invocations log - 1) (initial_interval self).
Proof.
  intros log. subst log.
  destruct (execute_log self func state w) as (Hle & Hsl & Hshape).
  split; [done|]. split; [done|]. split; [done|]. split; [|done].
  rewrite Hsl at 1. apply backoff_length.
Qed.

(** What [min] gives is not greater than its second argument, and is less
    or equal when neither is NaN. *)
Lemma py_min_capped (a b : float) :
  (b <? py_min a b)%float = false /\
  (is_nan (py_min a b) = false -> is_nan b = false ->
   (py_min a b <=? b)%float = true).
Proof.
  unfold py_min. destruct (b <? a)%float eqn:Hlt.
  - split; [apply ltb_irrefl|]. intros Hb _. by apply not_ltb_leb, ltb_irrefl.
  - split; [done|]. intros Ha Hb. by apply not_ltb_leb.
Qed.

(** After the first one, the intervals of a schedule are capped. *)
Lemma backoff_capped self (n : nat) (interval : float) :
  Forall (fun q =>
            (max_interval self <? q)%float = false /\
            (is_nan q = false -> is_nan (max_interval self) = false ->
             (q <=? max_interval self)%float = true))
         (tail (backoff self n interval)).
Proof.
  destruct n as [|n]; cbn; [constructor|].
  generalize (interval * backoff_multiplier self)%float. clear interval.
  induction n as [|n IH]; intros q; cbn; constructor.
  - apply py_min_capped.
  - apply IH.
Qed.

(** X2: the first backoff sleep of [execute] lasts [initial_interval]; no
    later one is greater than [max_interval], and every later one is less
    than or equal to [max_interval] unless one of the two is NaN; this holds
    whatever the handler does. *)
Theorem execute_sleeps_capped self func (state : State) (w : W) :
  let pauses := sleeps (snd (execute self func state w)) in
  (forall q, head pauses = Some q -> q = initial_interval self) /\
  Forall (fun q =>
            (max_interval self <? q)%float = false /\
            (is_nan q = false -> is_nan (max_interval self) = false ->
             (q <=? max_interval self)%float = true))
         (tail pauses).
Proof.
  intros pauses. subst pauses.
  destruct (execute_log self func state w) as (_ & -> & _).
  split; [|apply backoff_capped].
  destruct (_ - 1)%nat; cbn; intros q Hq; by simplify_eq.
Qed.

(** What the loop hands back comes from a call of the handler: from one it
    makes, or from the one that raised [last]; an eligible exception whose
    truth value is false is replaced. *)
Lemma attempts_outcome self func (remaining : nat) (attempt : Z)
    (interval : float) (last : option exn) (state : State) (w : W) o w' log :
  (last = None -> (1 <= remaining)%nat) ->
  (forall e, last = Some e ->
             catches (retry_on self) e = true /\
             exists s0 w0, func s0 w0 = (Fail e state, w)) ->
  attempts self func remaining attempt interval last state w = (o, w', log) ->
  (exists s0 w0, func s0 w0 = (o, w')) \/
  (exists s0 w0 e s1,
     func s0 w0 = (Fail e s1, w') /\ catches (retry_on self) e = true /\
     exn_bool e = false /\ o = Fail no_result s1).
Proof.
  revert attempt interval last state w o w' log.
  induction remaining as [|n IH];
    intros attempt interval last state w o w' log Hnone Hlast.
  - cbn. destruct last as [e|]; [|specialize (Hnone eq_refl); lia].
    destruct (Hlast e eq_refl) as (He & s0 & w0 & Hcall).
    destruct (exn_bool e) eqn:Hbool; intros; simplify_eq; [eauto|].
    right. eauto 10.
  - cbn [attempts]. destruct (func state w) as [[result|e state'] w1] eqn:Hcall.
    + intros; simplify_eq. eauto.
    + destruct (catches (retry_on self) e) eqn:He; [|intros; simplify_eq; eauto].
      destruct (attempt <? max_attempts self - 1)%Z;
        destruct (attempts self func n _ _ _ _ _) as [[o1 w2] log1] eqn:Hrec;
        intros; simplify_eq;
        (eapply IH; [| |exact Hrec]; [done|intros ? [= <-]; eauto]).
Qed.

(** X3: when [max_attempts] is at least 1, whatever [execute] returns or
    raises is what a call of the handler returned or raised, together with
    the world that call left, with one exception: when the last call raised
    an eligible exception whose truth value is false, [execute] raises its
    own [RuntimeError] instead. *)
Theorem execute_outcome_from_handler self func (state : State) (w : W) :
  (1 <= max_attempts self)%Z ->
  let o := fst (fst (execute self func state w)) in
  let w' := snd (fst (execute self func state w)) in
  (exists s0 w0, func s0 w0 = (o, w')) \/
  (exists s0 w0 e s1,
     func s0 w0 = (Fail e s1, w') /\ catches (retry_on self) e = true /\
     exn_bool e = false /\ o = Fail no_result s1).
Proof.
  intros Hmax o w'. subst o w'. unfold execute.
  destruct (attempts _ _ _ _ _ _ _ _) as [[o w'] log] eqn:Hrun. cbn.
  eapply attempts_outcome; [| |exact Hrun]; [lia|done].
Qed.



End Execute.

Lemma execute_outcome_from_handler_witness :
  let o := fst (fst (execute (only_value_error 3) (falsy_fail) ∅ 0%nat)) in
  let w' := snd (fst (execute (only_value_error 3) (falsy_fail) ∅ 0%nat)) in
  (exists s0 w0, falsy_fail s0 w0 = (o, w')) \/
  (exists s0 w0 e s1,
     falsy_fail s0 w0 = (Fail e s1, w') /\
     catches (retry_on (only_value_error 3)) e = true /\
     exn_bool e = false /\ o = Fail no_result s1).
Proof.
  apply (execute_outcome_from_handler (only_value_error 3) falsy_fail ∅ 0%nat).
  cbn. lia.
Defined.


(** The replaced exception, on the handler of the witness: three calls, and
    [RuntimeError] in the end. *)
Lemma execute_falsy_exception_example :
  exists log,
    execute (only_value_error 3) falsy_fail ∅ 0%nat =
      (Fail no_result ∅, 3%nat, log) /\
    invocations log = 3%nat.
Proof. eexists. split; by vm_compute. Qed.

End RetryScheduleFacts.

(** ** Facts about the operations of the checkpointer *)

Module CheckpointerOpsFacts.
Import Json JsonFacts MemoryCheckpointer CheckpointFacts CheckpointerOps.

(** [load] leaves the checkpointer as it is or without the thread. *)
Lemma load_snd (thread_id : string) (now : Z) (self : t) :
  snd (load thread_id now self) = self \/
  snd (load thread_id now self) = delete thread_id self.
Proof.
  unfold load. destruct (_store self !! thread_id); [|by left].
  destruct (_timestamps self !! thread_id); [|by left].
  destruct (_ >? _)%Z; [by right|by left].
Qed.

Lemma exists_snd (thread_id : string) (now : Z) (self : t) :
  snd (exists_ thread_id now self) = snd (load thread_id now self).
Proof.
  unfold exists_. by destruct (load thread_id now self) as [[?|[?|]] ?].
Qed.

Lemma delete_consistent (thread_id : string) (c : t * heap) :
  consistent c -> consistent (delete thread_id (fst c), snd c).
Proof.
  intros [Hdom Href]. split; cbn.
  - intros tid. destruct (decide (tid = thread_id)) as [->|Hne].
    + rewrite !lookup_delete_eq. split; intros [? ?]; discriminate.
    + rewrite !lookup_delete_ne by done. apply Hdom.
  - intros tid r. destruct (decide (tid = thread_id)) as [->|Hne].
    + by rewrite lookup_delete_eq.
    + rewrite lookup_delete_ne by done. apply Href.
Qed.

(** Every call keeps the two dicts in step and the references valid. *)
Lemma apply_consistent (c : t * heap) (o : op) :
  consistent c -> consistent (apply c o).
Proof.
  intros Hc. destruct o as [tid state now|tid now|tid now|tid|]; cbn.
  - rewrite save_inr. destruct Hc as [Hdom Href]. split; cbn.
    + intros tid'. destruct (decide (tid' = tid)) as [->|Hne].
      * rewrite !lookup_insert_eq. split; eauto.
      * rewrite !lookup_insert_ne by done. apply Hdom.
    + intros tid' r. unfold deref. destruct (decide (tid' = tid)) as [->|Hne].
      * rewrite lookup_insert_eq. intros [= <-].
        rewrite lookup_app_r, Nat.sub_diag by done. eauto.
      * rewrite lookup_insert_ne by done. intros [d Hd]%Href.
        unfold deref in Hd. rewrite lookup_app_l; [eauto|].
        by eapply lookup_lt_Some.
  - destruct (load_snd tid now (fst c)) as [->| ->];
      [by destruct c | by apply delete_consistent].
  - rewrite exists_snd.
    destruct (load_snd tid now (fst c)) as [->| ->];
      [by destruct c | by apply delete_consistent].
  - by apply delete_consistent.
  - split; cbn.
    + intros tid. rewrite !lookup_empty. split; intros [? ?]; discriminate.
    + intros tid r. by rewrite lookup_empty.
Qed.

Lemma after_consistent (ttl_seconds : Z) (ops : list op) :
  consistent (after ttl_seconds ops).
Proof.
  unfold after. induction ops as [|o ops IH] using rev_ind.
  - split; cbn.
    + intros tid. rewrite !lookup_empty. split; intros [? ?]; discriminate.
    + intros tid r. by rewrite lookup_empty.
  - rewrite foldl_app. cbn. by apply apply_consistent.
Qed.

(** X5: whatever calls were made on a [MemoryCheckpointer], in whatever
    order and at whatever instants, [load] does not raise, and a reference
    it returns denotes a stored object. *)
Theorem load_never_raises (ttl_seconds : Z) (ops : list op)
    (thread_id : string) (now : Z) :
  let c := after ttl_seconds ops in
  (forall e, fst (load thread_id now (fst c)) <> inl e) /\
  (forall r, fst (load thread_id now (fst c)) = inr (Some r) ->
             is_Some (deref (snd c) r)).
Proof.
  intros c. destruct (after_consistent ttl_seconds ops) as [Hdom Href].
  fold c in Hdom, Href. unfold load.
  destruct (_store (fst c) !! thread_id) as [r|] eqn:Hr; [|by split].
  destruct (proj1 (Hdom thread_id)) as [ts Hts]; [by rewrite Hr; eauto|].
  rewrite Hts. destruct (_ >? _)%Z; split; try done.
  cbn. intros r' [= <-]. by eapply Href.
Qed.

(** X6: [load] after the time-to-live has elapsed since the [save] finds
    nothing, removes the entry from both dicts, and every later [load]
    finds nothing either. *)
Theorem load_expired (thread_id : string) (state : State) (now later : Z)
    (self : t) (h : heap) :
  (later - now > _ttl self)%Z ->
  exists self' h',
    save thread_id state now self h = inr (self', h') /\
    fst (load thread_id later self') = inr None /\
    _store (snd (load thread_id later self')) !! thread_id = None /\
    _timestamps (snd (load thread_id later self')) !! thread_id = None /\
    forall t, load thread_id t (snd (load thread_id later self')) =
              (inr None, snd (load thread_id later self')).
Proof.
  intros Httl. eexists _, _. split; [apply save_inr|].
  unfold load at 1 2 3 4. cbn. rewrite !lookup_insert_eq.
  destruct (Z.gtb_spec (later - now) (_ttl self)) as [_|Hle]; [|lia]. cbn.
  rewrite !lookup_delete_eq. split; [done|]. split; [done|]. split; [done|].
  intros t. unfold load. cbn. rewrite !lookup_insert_eq.
  destruct (Z.gtb_spec (later - now) (_ttl self)) as [_|Hle]; [|lia]. cbn.
  by rewrite lookup_delete_eq.
Qed.

(** A call about one thread leaves the entries of the others alone. *)
Lemma apply_other_thread (c : t * heap) (o : op) (thread_id other : string) :
  op_thread o = Some thread_id -> other <> thread_id ->
  _store (fst (apply c o)) !! other = _store (fst c) !! other /\
  _timestamps (fst (apply c o)) !! other = _timestamps (fst c) !! other /\
  _ttl (fst (apply c o)) = _ttl (fst c) /\
  (forall r d, deref (snd c) r = Some d -> deref (snd (apply c o)) r = Some d).
Proof.
  intros Ho Hne.
  assert (forall self : t,
            _store (delete thread_id self) !! other = _store self !! other /\
            _timestamps (delete thread_id self) !! other =
              _timestamps self !! other) as Hdel.
  { intros self. cbn. by rewrite !lookup_delete_ne. }
  destruct o as [tid state now|tid now|tid now|tid|]; cbn in Ho; simplify_eq; cbn.
  - rewrite save_inr. cbn. rewrite !lookup_insert_ne by done.
    repeat split; try done. intros r d Hd. unfold deref in *.
    rewrite lookup_app_l; [done|]. by eapply lookup_lt_Some.
  - destruct (load_snd thread_id now (fst c)) as [->| ->]; [done|].
    destruct (Hdel (fst c)) as [-> ->]. done.
  - rewrite exists_snd.
    destruct (load_snd thread_id now (fst c)) as [->| ->]; [done|].
    destruct (Hdel (fst c)) as [-> ->]. done.
  - by rewrite !lookup_delete_ne.
Qed.

(** X7: a call about one thread ([save], [load], [exists] or [delete])
    never changes what [load] yields for another thread. *)
Theorem other_threads_unaffected (ttl_seconds : Z) (ops : list op) (o : op)
    (thread_id other : string) (now : Z) :
  op_thread o = Some thread_id -> other <> thread_id ->
  read other now (apply (after ttl_seconds ops) o) =
  read other now (after ttl_seconds ops).
Proof.
  intros Ho Hne.
  destruct (apply_other_thread (after ttl_seconds ops) o thread_id other Ho Hne)
    as (Hst & Hts & Httl & Hheap).
  destruct (after_consistent ttl_seconds ops) as [_ Href].
  unfold read, load. rewrite Hst, Hts, Httl.
  destruct (_store (fst (after ttl_seconds ops)) !! other) as [r|] eqn:Hr; [|done].
  destruct (_timestamps (fst (after ttl_seconds ops)) !! other); [|done].
  destruct (_ >? _)%Z; [done|].
  destruct (Href other r Hr) as [d Hd]. by rewrite Hd, (Hheap r d Hd).
Qed.

(** X8: a second [save] under the same thread id replaces the first: within
    the time-to-live of the second, [load] yields the second snapshot
    (however old the first), and the checkpointer holds no more entries
    than after the first. *)
Theorem save_overwrites (thread_id : string) (first second : State)
    (t1 t2 t3 : Z) (self : t) (h : heap) :
  (t3 - t2 <= _ttl self)%Z ->
  exists c1 c2,
    save thread_id first t1 self h = inr c1 /\
    save thread_id second t2 (fst c1) (snd c1) = inr c2 /\
    read thread_id t3 c2 = Some (normalize <$> _serialize second) /\
    size (fst c2) = size (fst c1).
Proof.
  intros Httl. eexists _, _. split; [apply save_inr|]. cbn.
  split; [apply save_inr|]. unfold read, load, size. cbn.
  rewrite !lookup_insert_eq.
  destruct (Z.gtb_spec (t3 - t2) (_ttl self)) as [Hgt|_]; [lia|].
  split.
  - unfold deref. by rewrite lookup_app_r, Nat.sub_diag.
  - by rewrite insert_insert_eq, !map_size_insert.
Qed.

Lemma load_expired_witness :
  exists self' h',
    save "thread-1" {["key" := VStr "value"]} 0 (init 1) [] = inr (self', h') /\
    fst (load "thread-1" 2 self') = inr None /\
    _store (snd (load "thread-1" 2 self')) !! "thread-1" = None /\
    _timestamps (snd (load "thread-1" 2 self')) !! "thread-1" = None /\
    forall t, load "thread-1" t (snd (load "thread-1" 2 self')) =
              (inr None, snd (load "thread-1" 2 self')).
Proof.
  apply (load_expired "thread-1" {["key" := VStr "value"]} 0 2 (init 1) []).
  cbn. lia.
Defined.

Lemma other_threads_unaffected_witness :
  read "thread-2" 0
       (apply (after 3600 [Save "thread-2" {["version" := VInt 1]} 0])
              (Delete "thread-1")) =
  read "thread-2" 0 (after 3600 [Save "thread-2" {["version" := VInt 1]} 0]).
Proof.
  apply (other_threads_unaffected 3600
           [Save "thread-2" {["version" := VInt 1]} 0] (Delete "thread-1")
           "thread-1" "thread-2" 0).
  - reflexivity.
  - discriminate.
Defined.

Lemma save_overwrites_witness :
  exists c1 c2,
    save "thread-1" {["version" := VInt 1]} 0 (init 3600) [] = inr c1 /\
    save "thread-1" {["version" := VInt 2]} 5 (fst c1) (snd c1) = inr c2 /\
    read "thread-1" 10 c2 =
      Some (normalize <$> _serialize {["version" := VInt 2]}) /\
    size (fst c2) = size (fst c1).
Proof.
  apply (save_overwrites "thread-1" {["version" := VInt 1]}
           {["version" := VInt 2]} 0 5 10 (init 3600) []).
  cbn. lia.
Defined.

End CheckpointerOpsFacts.

(** ** Facts about validation, routing and resumption *)

Module ValidateFacts.
Import Checkpoint Retry Graph Validate Examples GraphFacts.

Section Graph.
Context {W C : Type}.
Implicit Types (self : StateGraph W) (node : Node W) (state : State).
Implicit Types (w : W) (c : C) (edge : Edge).

(** Edges registered after an edge that leaves [current] are not looked
    at. *)
Lemma first_edge_app_l (es es' : list Edge) (current : string) state :
  Exists (fun edge => source edge = current) es ->
  first_edge (es ++ es') current state = first_edge es current state.
Proof.
  induction 1 as [edge es Hsrc|edge es _ IH]; cbn.
  - apply String.eqb_eq in Hsrc. by rewrite Hsrc.
  - by destruct (negb _).
Qed.

Lemma first_edge_app_r (es es' : list Edge) (current : string) state :
  Forall (fun edge => source edge <> current) es ->
  first_edge (es ++ es') current state = first_edge es' current state.
Proof.
  induction 1 as [|edge es Hne _ IH]; [done|]. cbn.
  apply String.eqb_neq in Hne. by rewrite Hne.
Qed.

(** X9: the first edge registered for a node decides where it leads: an
    edge added for a node that already has one never changes the routing,
    and an edge added for a node that has none is the one followed. *)
Theorem first_registered_edge_decides self (s t current : string)
    (router : State -> option string) state :
  (Exists (fun edge => source edge = current) (edges self) ->
   _get_next_node (add_edge self s t) current state =
     _get_next_node self current state /\
   _get_next_node (add_conditional_edge self s router) current state =
     _get_next_node self current state) /\
  (Forall (fun edge => source edge <> s) (edges self) ->
   _get_next_node (add_edge self s t) s state = Some t /\
   _get_next_node (add_conditional_edge self s router) s state = router state).
Proof.
  unfold _get_next_node. cbn. split.
  - intros Hex. by rewrite !first_edge_app_l.
  - intros Hall. rewrite !first_edge_app_r by done. cbn.
    by rewrite String.eqb_refl.
Qed.

Lemma bind_nil_Forall {A B} (f : A -> list B) (l : list A) :
  l ≫= f = [] <-> Forall (fun x => f x = []) l.
Proof.
  induction l as [|x l IH]; cbn.
  - split; [constructor|done].
  - split.
    + intros [Hx Hl]%app_eq_nil. constructor; [done|by apply IH].
    + intros [Hx Hl]%Forall_cons. rewrite Hx. cbn. by apply IH.
Qed.

Lemma has_node_true self (n : string) :
  has_node self n = true <-> is_Some (nodes self !! n).
Proof. unfold has_node. apply bool_decide_eq_true. Qed.

Lemma validate_edge_nil self edge :
  validate_edge self edge = [] <->
  is_Some (nodes self !! source edge) /\
  (forall t, target edge = Some t ->
             t = "" \/ t = "END" \/ is_Some (nodes self !! t)).
Proof.
  unfold validate_edge. rewrite <-!has_node_true.
  destruct (has_node self (source edge)); cbn; [|split; [done|by intros [? _]]].
  destruct (target edge) as [t|]; [|split; [split; [done|done]|done]].
  destruct (String.eqb_spec t ""); cbn.
  { split; [|done]. intros _. split; [done|]. intros ? [= <-]. by left. }
  destruct (String.eqb_spec t "END"); cbn.
  { split; [|done]. intros _. split; [done|]. intros ? [= <-]. by right; left. }
  destruct (has_node self t) eqn:Hnode; cbn.
  - split; [|done]. intros _. split; [done|]. intros ? [= <-].
    right; right. by apply has_node_true.
  - split; [done|]. intros [_ Ht].
    destruct (Ht t eq_refl) as [?|[?|Hsome]]; [done|done|].
    apply has_node_true in Hsome. congruence.
Qed.

Lemma elem_of_get_node_names self (n : string) :
  n ∈ get_node_names self <-> is_Some (nodes self !! n).
Proof.
  unfold get_node_names. rewrite list_elem_of_fmap. split.
  - intros ([k node] & -> & Hin%elem_of_map_to_list). eauto.
  - intros [node Hn]. exists (n, node). split; [done|].
    by apply elem_of_map_to_list.
Qed.

(** No message about the entry point. *)
Lemma validate_entry_point_nil self :
  validate_entry_point self = [] <->
  exists e, entry_point self = Some e /\ (e = "" \/ is_Some (nodes self !! e)).
Proof.
  unfold validate_entry_point. destruct (entry_point self) as [e|]; cbn.
  - destruct (String.eqb_spec e ""); cbn; [split; [eauto|done]|].
    destruct (has_node self e) eqn:Hnode; cbn.
    + apply has_node_true in Hnode. split; [eauto|done].
    + split; [done|]. intros (? & [= <-] & [?|Hsome]); [done|].
      apply has_node_true in Hsome. congruence.
  - split; [done|]. by intros (? & ? & _).
Qed.

(** No message about any edge. *)
Lemma validate_edges_nil self :
  edges self ≫= validate_edge self = [] <->
  Forall (fun edge =>
            is_Some (nodes self !! source edge) /\
            forall t, target edge = Some t ->
                      t = "" \/ t = "END" \/ is_Some (nodes self !! t))
         (edges self).
Proof.
  rewrite bind_nil_Forall. apply Forall_proper; [|done].
  intros edge. apply validate_edge_nil.
Qed.

(** No message about any node. *)
Lemma validate_nodes_nil self :
  get_node_names self ≫= validate_node self = [] <->
  forall n, is_Some (nodes self !! n) ->
            exists edge, edge ∈ edges self /\ source edge = n.
Proof.
  rewrite bind_nil_Forall, Forall_forall. unfold validate_node.
  split; intros H n Hn.
  - apply elem_of_get_node_names in Hn. specialize (H n Hn).
    case_bool_decide as Hsrc; [|done].
    apply list_elem_of_fmap in Hsrc as (edge & -> & Hin). eauto.
  - apply elem_of_get_node_names in Hn.
    destruct (H n Hn) as (edge & Hin & <-).
    rewrite bool_decide_eq_true_2; [done|]. apply list_elem_of_fmap. eauto.
Qed.

(** [validate] reports nothing when none of its three parts does. *)
Lemma validate_parts self :
  validate self = [] <->
  validate_entry_point self = [] /\
  edges self ≫= validate_edge self = [] /\
  get_node_names self ≫= validate_node self = [].
Proof.
  unfold validate. split.
  - by intros [? [? ?]%app_eq_nil]%app_eq_nil.
  - by intros (-> & -> & ->).
Qed.

(** X10: [validate] reports nothing exactly when an entry point is set and
    is a node (or is the empty string), the source of every edge is a node,
    every explicit target is a node, ["END"] or the empty string, and every
    node is the source of some edge. *)
Theorem validate_nil self :
  validate self = [] <->
  (exists e, entry_point self = Some e /\
             (e = "" \/ is_Some (nodes self !! e))) /\
  Forall (fun edge =>
            is_Some (nodes self !! source edge) /\
            forall t, target edge = Some t ->
                      t = "" \/ t = "END" \/ is_Some (nodes self !! t))
         (edges self) /\
  (forall n, is_Some (nodes self !! n) ->
             exists edge, edge ∈ edges self /\ source edge = n).
Proof.
  pose proof (validate_parts self). pose proof (validate_entry_point_nil self).
  pose proof (validate_edges_nil self). pose proof (validate_nodes_nil self).
  tauto.
Qed.

(** The loop goes on only with a proper node name. *)
Lemma running_Some (cn : option string) (n : string) :
  running cn = Some n -> cn = Some n /\ n <> "" /\ n <> "END".
Proof.
  unfold running. destruct cn as [m|]; [|done].
  destruct (String.eqb_spec m ""); cbn; [done|].
  destruct (String.eqb_spec m "END"); cbn; [done|].
  by intros [= <-].
Qed.

(** Without routers, the next node is the target of an edge. *)
Lemma first_edge_static (es : list Edge) (current t : string) state :
  Forall (fun edge => condition edge = None) es ->
  first_edge es current state = Some t ->
  exists edge, edge ∈ es /\ source edge = current /\ target edge = Some t.
Proof.
  induction 1 as [|edge es Hcond _ IH]; cbn; [done|].
  destruct (String.eqb_spec (source edge) current) as [Hsrc|Hne]; cbn.
  - rewrite Hcond. intros Ht. exists edge. split; [left|done].
  - intros (edge' & ? & ? & ?)%IH. exists edge'. split; [by right|done].
Qed.

Lemma next_node_known self (current : string) state :
  validate self = [] -> static_routing self ->
  known self (_get_next_node self current state).
Proof.
  intros (_ & Hedges%validate_edges_nil & _)%validate_parts [Hstatic _] n
    (Hnext & Hn1 & Hn2)%running_Some.
  apply first_edge_static in Hnext as (edge & Hin & _ & Ht); [|done].
  rewrite Forall_forall in Hedges.
  destruct (Hedges edge Hin) as [_ Htarget].
  by destruct (Htarget n Ht) as [?|[?|?]].
Qed.

Lemma step_known self (checkpointer : option (Checkpointer C))
    (thread_id : value) (current : string) state w c :
  validate self = [] -> static_routing self ->
  match step self checkpointer thread_id current state w c with
  | Next cn _ _ _ => known self cn
  | Raise e w' _ =>
      is_Some (nodes self !! current) ->
      exists node s w0 s1,
        nodes self !! current = Some node /\
        _execute_node node s w0 = (Fail e s1, w')
  end.
Proof.
  intros Hvalid Hstatic. unfold step.
  destruct (nodes self !! current) as [node|] eqn:Hnode;
    [|by intros [? ?]].
  unfold try_node.
  destruct (_execute_node node _ w) as [[s1|e s1] w1] eqn:Hexec.
  - by apply next_node_known.
  - destruct (isinstance e "Exception"); [|by eauto 10].
    destruct (String.eqb_spec (on_failure node) "error"); [by eauto 10|].
    destruct (String.eqb_spec (on_failure node) "skip");
      [by apply next_node_known|].
    destruct Hstatic as [_ Hpolicy]. by destruct (Hpolicy _ _ Hnode).
Qed.

(** In a validated graph with fixed routing, an exception that leaves the
    loop was raised by the execution of one of the nodes. *)
Lemma loop_raises_from_node self (checkpointer : option (Checkpointer C))
    (thread_id : value) (fuel : nat) (cn : option string) state w c
    (e : exn) w' c' :
  validate self = [] -> static_routing self -> known self cn ->
  loop self checkpointer thread_id fuel cn state w c = Raised e w' c' ->
  exists n node s w0 s1,
    nodes self !! n = Some node /\
    _execute_node node s w0 = (Fail e s1, w').
Proof.
  intros Hvalid Hstatic. revert cn state w c.
  induction fuel as [|fuel IH]; intros cn state w c Hknown; cbn.
  - by destruct (running cn).
  - destruct (running cn) as [current|] eqn:Hrun; [|done].
    pose proof (step_known self checkpointer thread_id current state w c
                  Hvalid Hstatic) as Hstep.
    destruct (step self checkpointer thread_id current state w c)
      as [cn' state' w1 c1|e1 w1 c1].
    + by apply IH.
    + intros [= -> -> ->].
      destruct (Hstep (Hknown _ Hrun)) as (node & s & w0 & s1 & ? & ?).
      eauto 10.
Qed.

(** The loop itself never fails on a marker: that failure comes from a
    resumed [_current_node] alone, so a run without checkpointer never has
    it. *)
Lemma loop_not_on_marker self (checkpointer : option (Checkpointer C))
    (thread_id : value) (fuel : nat) (cn : option string) state w c
    (v : value) w' c' :
  loop self checkpointer thread_id fuel cn state w c <> RaisedOnMarker v w' c'.
Proof.
  revert cn state w c. induction fuel as [|fuel IH]; intros cn state w c; cbn.
  - by destruct (running cn).
  - destruct (running cn) as [current|]; [|done].
    destruct (step self checkpointer thread_id current state w c); [|done].
    apply IH.
Qed.

Lemma run_without_checkpointer_not_on_marker self (initial_state : State)
    (fuel : nat) w c (v : value) w' c' :
  run self initial_state None fuel w c <> RaisedOnMarker v w' c'.
Proof.
  unfold run. destruct (entry_point self) as [entry|]; [|done]. cbn.
  apply loop_not_on_marker.
Qed.

(** X11: when [validate] reports nothing and the graph has neither
    conditional edges nor redirect policies, a run without checkpointer
    never fails on an unknown node: any exception that leaves [run] was
    raised by the execution of one of the nodes. *)
Theorem validated_run_raises_only_node_failures self (initial_state : State)
    (fuel : nat) w c (e : exn) w' c' :
  validate self = [] -> static_routing self ->
  run self initial_state None fuel w c = Raised e w' c' ->
  exists n node s w0 s1,
    nodes self !! n = Some node /\
    _execute_node node s w0 = (Fail e s1, w').
Proof.
  intros Hvalid Hstatic. unfold run.
  destruct (proj1 (validate_parts self) Hvalid) as (Hep & _).
  apply validate_entry_point_nil in Hep as (entry & Hentry & Hnode).
  rewrite Hentry. cbn. apply loop_raises_from_node; [done|done|].
  intros n (Hn & Hn1 & _)%running_Some. simplify_eq.
  by destruct Hnode.
Qed.

End Graph.

Lemma single_node_static (h : Handler (W := unit)) :
  static_routing (single_node_graph h).
Proof.
  assert (nodes (single_node_graph h) =
          {["node" := {| name := "node"; handler := h; retry_policy := None;
                         on_failure := "error" |}]}) as Hnodes
    by (by vm_compute).
  split; [by repeat constructor|]. rewrite Hnodes.
  intros n node [_ <-]%lookup_singleton_Some. by left.
Qed.

Lemma validated_run_raises_only_node_failures_witness :
  exists n node s w0 s1,
    nodes (single_node_graph failing_node) !! n = Some node /\
    _execute_node node s w0 = (Fail (ValueError "Intentional failure") s1, tt).
Proof.
  apply (validated_run_raises_only_node_failures
           (single_node_graph failing_node) ∅ 10 tt tt
           (ValueError "Intentional failure") tt tt).
  - by vm_compute.
  - apply single_node_static.
  - by vm_compute.
Defined.

End ValidateFacts.

Module ResumeFacts.
Import Json JsonFacts Checkpoint Graph Examples CheckpointFacts.

(** X12: a [run] whose state names a thread for which the
    [MemoryCheckpointer] holds a snapshot that has not expired does not start
    from the caller's state at the entry point: it enters its loop on the
    caller's state updated with the snapshot (under every key the snapshot
    holds, the stored value wins), at the node the merged state names under
    ["_current_node"], or at the entry point when it names none.  A marker
    that is not a string ends the run at once: with the merged state when
    the marker is falsy, with an exception when it is truthy. *)
Theorem run_resumes_from_checkpoint {W : Type} (self : StateGraph W)
    (entry tid : string) (saved initial_state : State) (now later : Z)
    (fuel : nat) (w : W)
    (c : MemoryCheckpointer.t * list (gmap string value)) :
  entry_point self = Some entry ->
  initial_state !! "thread_id" = Some (VStr tid) -> tid <> "" ->
  (later - now <= MemoryCheckpointer._ttl (fst c))%Z ->
  MemoryCheckpointer._serialize saved <> ∅ ->
  let ck := MemoryCheckpointer.as_checkpointer later in
  let c1 := save (MemoryCheckpointer.as_checkpointer now) (VStr tid) saved c in
  exists resumed : State,
    (forall k, resumed !! k =
               match saved !! k ≫= persisted with
               | Some v => Some v
               | None => initial_state !! k
               end) /\
    run self initial_state (Some ck) fuel w c1 =
      match resumed !! "_current_node" with
      | None => loop self (Some ck) (VStr tid) fuel (Some entry) resumed w c1
      | Some (VStr n) =>
          loop self (Some ck) (VStr tid) fuel (Some n) resumed w c1
      | Some v =>
          if truthy v then RaisedOnMarker v w c1 else Returned resumed w c1
      end.
Proof.
  intros Hentry Hthread Htid Httl Hsome ck c1.
  set (snapshot := normalize <$> MemoryCheckpointer._serialize saved).
  exists (snapshot ∪ initial_state). split.
  { intros k. rewrite lookup_union. unfold snapshot.
    rewrite snapshot_lookup.
    destruct (saved !! k ≫= persisted) as [v|];
      by destruct (initial_state !! k). }
  unfold run. rewrite Hentry. unfold get. rewrite Hthread. cbn [default].
  unfold resume. subst c1 ck. cbn.
  apply String.eqb_neq in Htid. rewrite Htid. cbn.
  rewrite save_inr. unfold MemoryCheckpointer.load. cbn.
  rewrite !lookup_insert_eq.
  destruct (Z.gtb_spec (later - now) (MemoryCheckpointer._ttl (fst c)))
    as [Hgt|_]; [lia|].
  unfold MemoryCheckpointer.deref. cbn.
  rewrite lookup_app_r, Nat.sub_diag by done. cbn.
  fold snapshot.
  destruct (Nat.eqb_spec (size snapshot) 0) as [Hsize|_].
  { apply map_size_empty_inv in Hsize. destruct Hsome.
    apply (fmap_empty_inv normalize). exact Hsize. }
  destruct ((snapshot ∪ initial_state) !! "_current_node") as [v|];
    [|reflexivity].
  destruct v; try reflexivity. cbn [node_ref truthy].
  by destruct fuel.
Qed.

Lemma run_resumes_from_checkpoint_witness :
  let saved : State :=
    {["_current_node" := VStr "double"; "counter" := VInt 5]} in
  let ck := MemoryCheckpointer.as_checkpointer 10 in
  let c1 := save (MemoryCheckpointer.as_checkpointer 0) (VStr "test-123")
                 saved (MemoryCheckpointer.init 3600, []) in
  exists resumed : State,
    (forall k, resumed !! k =
               match saved !! k ≫= persisted with
               | Some v => Some v
               | None => checkpointed_state !! k
               end) /\
    run linear_graph checkpointed_state (Some ck) 10 tt c1 =
      match resumed !! "_current_node" with
      | None =>
          loop linear_graph (Some ck) (VStr "test-123") 10 (Some "increment")
               resumed tt c1
      | Some (VStr n) =>
          loop linear_graph (Some ck) (VStr "test-123") 10 (Some n)
               resumed tt c1
      | Some v =>
          if truthy v then RaisedOnMarker v tt c1 else Returned resumed tt c1
      end.
Proof.
  apply (run_resumes_from_checkpoint linear_graph "increment" "test-123"
           {["_current_node" := VStr "double"; "counter" := VInt 5]}
           checkpointed_state 0 10 10 tt (MemoryCheckpointer.init 3600, [])).
  - reflexivity.
  - reflexivity.
  - discriminate.
  - cbn. lia.
  - intros Hempty.
    apply (f_equal (fun m : State => m !! "counter")) in Hempty.
    by vm_compute in Hempty.
Defined.

(** On the graph of [test_simple_linear_graph], a run that finds the
    snapshot [{"_current_node": "double", "counter": 5}] runs ["double"]
    only, and a run that finds the marker [7] raises. *)
Lemma run_resumes_examples :
  let store saved :=
    save (MemoryCheckpointer.as_checkpointer 0) (VStr "test-123") saved
         (MemoryCheckpointer.init 3600, []) in
  (exists final c',
     run linear_graph checkpointed_state
         (Some (MemoryCheckpointer.as_checkpointer 10)) 10 tt
         (store {["_current_node" := VStr "double"; "counter" := VInt 5]})
       = Returned final tt c' /\
     final !! "counter" = Some (VInt 10)) /\
  (exists c',
     run linear_graph checkpointed_state
         (Some (MemoryCheckpointer.as_checkpointer 10)) 10 tt
         (store {["_current_node" := VInt 7]})
       = RaisedOnMarker (VInt 7) tt c').
Proof.
  split.
  - eexists _, _. split; by vm_compute.
  - eexists. by vm_compute.
Qed.

End ResumeFacts.

(** ** Facts about subgraph extraction and state inheritance *)

Module SubgraphBuilderFacts.
Import Retry Graph Subgraph SubgraphBuilder Examples.

Section Facts.
Context {W : Type}.
Implicit Types (parent sub : StateGraph W) (names : list string).

Lemma copy_nodes_inr parent names sub sub' :
  keyed_by_name parent ->
  copy_nodes parent names sub = inr sub' ->
  Forall (fun n => is_Some (nodes parent !! n)) names /\
  edges sub' = edges sub /\ entry_point sub' = entry_point sub /\
  forall n, nodes sub' !! n =
            if decide (n ∈ names) then nodes parent !! n else nodes sub !! n.
Proof.
  intros Hkey. revert sub. induction names as [|m names IH]; intros sub; cbn.
  - intros [= <-]. split; [constructor|]. split; [done|]. split; [done|].
    intros n. by rewrite decide_False by apply not_elem_of_nil.
  - destruct (nodes parent !! m) as [node|] eqn:Hm; [|done].
    intros (Hall & -> & -> & Hlookup)%IH.
    split; [constructor; eauto|]. split; [done|]. split; [done|].
    intros n. rewrite Hlookup. cbn. rewrite (Hkey _ _ Hm).
    destruct (decide (n ∈ names)) as [Hin|Hnin].
    + by rewrite decide_True by (by right).
    + destruct (decide (n = m)) as [->|Hne].
      * rewrite decide_True by left. rewrite lookup_insert_eq, Hm.
        f_equal. destruct node; cbn in *. f_equal. by apply Hkey in Hm.
      * rewrite decide_False; [by rewrite lookup_insert_ne|].
        rewrite elem_of_cons. by intros [?|?].
Qed.

Lemma copy_nodes_inl parent names sub e :
  copy_nodes parent names sub = inl e ->
  exists n, n ∈ names /\ nodes parent !! n = None.
Proof.
  revert sub. induction names as [|m names IH]; intros sub; cbn; [done|].
  destruct (nodes parent !! m) as [node|] eqn:Hm.
  - intros (n & ? & ?)%IH. exists n. split; [by right|done].
  - intros _. exists m. split; [left|done].
Qed.

Lemma copy_edges_nodes parent names sub :
  nodes (copy_edges parent names sub) = nodes sub /\
  entry_point (copy_edges parent names sub) = entry_point sub.
Proof.
  unfold copy_edges. revert sub.
  induction (edges parent) as [|edge es IH]; intros sub; cbn; [done|].
  destruct (connects names edge); [|apply IH].
  destruct (condition edge) as [router|].
  - by destruct (IH (add_conditional_edge sub (source edge) router)) as [-> ->].
  - by destruct (IH (add_edge sub (source edge) (target_or_END edge)))
      as [-> ->].
Qed.

Lemma copy_edges_edges parent names sub :
  edges (copy_edges parent names sub) =
  edges sub ++
  (copied <$> filter (fun edge => connects names edge = true) (edges parent)).
Proof.
  unfold copy_edges. revert sub.
  induction (edges parent) as [|edge es IH]; intros sub.
  - cbn. by rewrite app_nil_r.
  - cbn [foldl]. rewrite IH, filter_cons.
    destruct (connects names edge) eqn:Hc.
    + rewrite decide_True, fmap_cons by done. unfold copied at 2.
      destruct (condition edge); cbn; by rewrite <-app_assoc.
    + by rewrite decide_False by congruence.
Qed.

(** What a successful [extract] builds. *)
Lemma extract_inr parent names (entry : string) sub :
  keyed_by_name parent ->
  extract parent names entry = inr sub ->
  Forall (fun n => is_Some (nodes parent !! n)) names /\
  entry ∈ names /\
  (forall n, nodes sub !! n =
             if decide (n ∈ names) then nodes parent !! n else None) /\
  entry_point sub = Some entry /\
  edges sub =
    copied <$> filter (fun edge => connects names edge = true) (edges parent).
Proof.
  intros Hkey. unfold extract.
  destruct (copy_nodes parent names Graph.empty) as [e|sub0] eqn:Hcopy; [done|].
  apply copy_nodes_inr in Hcopy as (Hall & Hedges & _ & Hnodes); [|done].
  unfold set_entry_point.
  destruct (copy_edges_nodes parent names sub0) as [Hn _].
  rewrite Hn, Hnodes.
  destruct (decide (entry ∈ names)) as [Hin|Hnin]; cbn.
  - destruct (nodes parent !! entry) as [node|] eqn:Hentry; [|done].
    intros [= <-]. cbn [nodes edges entry_point].
    rewrite copy_edges_edges, Hedges.
    repeat split; try done.
  - by rewrite lookup_empty.
Qed.

(** X13: on a parent whose nodes are stored under their names, [extract]
    succeeds exactly when every requested name is a node of the parent and
    the entry point is one of the requested names; otherwise it raises. *)
Theorem extract_succeeds_iff parent names (entry : string) :
  keyed_by_name parent ->
  (exists sub, extract parent names entry = inr sub) <->
  Forall (fun n => is_Some (nodes parent !! n)) names /\ entry ∈ names.
Proof.
  intros Hkey. split.
  - intros [sub Hsub]. apply extract_inr in Hsub; [|done]. tauto.
  - intros [Hall Hin]. unfold extract.
    destruct (copy_nodes parent names Graph.empty) as [e|sub0] eqn:Hcopy.
    + apply copy_nodes_inl in Hcopy as (n & Hn & Hnone).
      rewrite Forall_forall in Hall. destruct (Hall n Hn) as [? ?]. congruence.
    + apply copy_nodes_inr in Hcopy as (_ & _ & _ & Hnodes); [|done].
      unfold set_entry_point.
      destruct (copy_edges_nodes parent names sub0) as [-> _].
      rewrite Hnodes, decide_True by done.
      rewrite Forall_forall in Hall. destruct (Hall entry Hin) as [node ->].
      eauto.
Qed.

(** X14: the graph [extract] returns has exactly the requested nodes, as
    the parent has them, and no other; its edges all leave a requested
    node, and each leads to a requested node or to ["END"], or is
    conditional: [validate] finds no fault with its entry point or its
    edges. *)
Theorem extracted_graph_is_closed parent names (entry : string) sub :
  keyed_by_name parent ->
  extract parent names entry = inr sub ->
  (forall n, nodes sub !! n =
             if decide (n ∈ names) then nodes parent !! n else None) /\
  Validate.validate_entry_point sub = [] /\
  edges sub ≫= Validate.validate_edge sub = [].
Proof.
  intros Hkey (Hall & Hin & Hnodes & Hentry & Hedges)%extract_inr; [|done].
  rewrite Forall_forall in Hall.
  assert (forall n, n ∈ names -> Validate.has_node sub n = true) as Hhas.
  { intros n Hn. apply bool_decide_eq_true. rewrite Hnodes.
    rewrite decide_True by done. by apply Hall. }
  split; [done|]. split.
  - unfold Validate.validate_entry_point. rewrite Hentry. cbn.
    rewrite (Hhas entry Hin). by rewrite andb_false_r.
  - rewrite Hedges. clear Hedges.
    induction (edges parent) as [|edge es IH]; [done|]. rewrite filter_cons.
    destruct (decide (connects names edge = true)) as [Hc|]; [|done].
    cbn. rewrite IH, app_nil_r. clear IH.
    apply andb_true_iff in Hc as [Hsrc%bool_decide_eq_true Htgt].
    unfold Validate.validate_edge, copied, target_or_END.
    destruct (condition edge) as [router|]; cbn; [by rewrite (Hhas _ Hsrc)|].
    rewrite (Hhas _ Hsrc). cbn.
    destruct (target edge) as [t|]; [|done].
    destruct (String.eqb_spec t ""); [done|]. cbn.
    rewrite (proj2 (String.eqb_neq t "") n). cbn.
    apply orb_true_iff in Htgt as [Ht%bool_decide_eq_true| ->]; [|done].
    rewrite (Hhas _ Ht). by rewrite andb_false_r.
Qed.

(** X15: where the edge that decides the routing of a node in the parent
    is copied, the extracted graph routes that node as the parent does. *)
Theorem extract_preserves_routing parent names (entry : string) sub
    (pre post : list Edge) (edge : Edge) (n : string) (state : State) :
  keyed_by_name parent ->
  extract parent names entry = inr sub ->
  edges parent = pre ++ edge :: post ->
  Forall (fun e => source e <> n) pre ->
  source edge = n ->
  connects names edge = true ->
  (condition edge = None -> exists t, target edge = Some t /\ t <> "") ->
  _get_next_node sub n state = _get_next_node parent n state.
Proof.
  intros Hkey (_ & _ & _ & _ & Hedges)%extract_inr Hparent Hpre Hsrc Hc Ht;
    [|done].
  unfold _get_next_node. rewrite Hedges, Hparent.
  rewrite filter_app, filter_cons, decide_True, fmap_app by done.
  rewrite (ValidateFacts.first_edge_app_r pre) by done.
  rewrite ValidateFacts.first_edge_app_r.
  2:{ clear -Hpre. induction Hpre as [|e pre He _ IH]; [constructor|].
      rewrite filter_cons. destruct (decide _); [|done].
      cbn. constructor; [|done]. unfold copied. by destruct (condition e). }
  cbn. unfold copied, target_or_END.
  destruct (condition edge) as [router|]; cbn; rewrite Hsrc, String.eqb_refl; cbn;
    [done|].
  destruct (Ht eq_refl) as (t & -> & Hne).
  by rewrite (proj2 (String.eqb_neq t "") Hne).
Qed.

(** The builder methods keep every node under the name it carries. *)
Lemma keyed_by_name_empty : keyed_by_name (Graph.empty (W := W)).
Proof. intros n node Hn. cbn in Hn. by rewrite lookup_empty in Hn. Qed.

Lemma keyed_by_name_add_node parent (n : string) (h : Handler (W := W))
    (policy : option RetryPolicy) (failure : string) :
  keyed_by_name parent -> keyed_by_name (add_node parent n h policy failure).
Proof.
  intros Hkey m node Hm. cbn in Hm.
  apply lookup_insert_Some in Hm as [[<- <-]|[_ Hm]]; [done|].
  by apply Hkey.
Qed.

Lemma keyed_by_name_add_edge parent (s t : string) :
  keyed_by_name parent -> keyed_by_name (add_edge parent s t).
Proof. done. Qed.

End Facts.

Lemma keyed_by_name_with_entry_point (g : StateGraph unit) (n : string) :
  keyed_by_name g -> keyed_by_name (with_entry_point g n).
Proof.
  intros Hkey. unfold with_entry_point, set_entry_point.
  by destruct (nodes g !! n).
Qed.

Lemma keyed_by_name_linear_graph : keyed_by_name linear_graph.
Proof.
  apply keyed_by_name_with_entry_point.
  do 2 apply keyed_by_name_add_edge. do 2 apply keyed_by_name_add_node.
  apply keyed_by_name_empty.
Qed.

Lemma extract_succeeds_iff_witness :
  (exists sub, extract linear_graph ["increment"; "double"] "increment"
               = inr sub) <->
  Forall (fun n => is_Some (nodes linear_graph !! n)) ["increment"; "double"] /\
  "increment" ∈ ["increment"; "double"].
Proof.
  apply (extract_succeeds_iff linear_graph ["increment"; "double"] "increment").
  apply keyed_by_name_linear_graph.
Defined.

Lemma extracted_graph_is_closed_witness :
  exists sub,
    extract linear_graph ["double"] "double" = inr sub /\
    (forall n, nodes sub !! n =
               if decide (n ∈ ["double"]) then nodes linear_graph !! n
               else None) /\
    Validate.validate_entry_point sub = [] /\
    edges sub ≫= Validate.validate_edge sub = [].
Proof.
  assert (exists sub, extract linear_graph ["double"] "double" = inr sub)
    as [sub Hsub] by (vm_compute; eauto).
  exists sub. split; [exact Hsub|].
  apply (extracted_graph_is_closed linear_graph ["double"] "double" sub).
  - apply keyed_by_name_linear_graph.
  - exact Hsub.
Defined.

Lemma extract_preserves_routing_witness :
  exists sub,
    extract linear_graph ["increment"; "double"] "increment" = inr sub /\
    _get_next_node sub "increment" ∅ = _get_next_node linear_graph "increment" ∅.
Proof.
  assert (exists sub,
            extract linear_graph ["increment"; "double"] "increment" = inr sub)
    as [sub Hsub] by (vm_compute; eauto).
  exists sub. split; [exact Hsub|].
  apply (extract_preserves_routing linear_graph ["increment"; "double"]
           "increment" sub []
           [{| source := "double"; target := Some "END"; condition := None |}]
           {| source := "increment"; target := Some "double";
              condition := None |}).
  - apply keyed_by_name_linear_graph.
  - exact Hsub.
  - reflexivity.
  - constructor.
  - reflexivity.
  - reflexivity.
  - intros _. exists "double". split; [reflexivity|discriminate].
Defined.

End SubgraphBuilderFacts.

Module InheritFacts.
Import Subgraph.

(** The inheritance loop, from any starting dict. *)
Lemma inherit_foldl_lookup (parent sub : State) (keys : list string)
    (k : string) :
  foldl (fun sub key =>
           match parent !! key with
           | Some v => <[key := v]> sub
           | None => sub
           end) sub keys !! k =
  if decide (k ∈ keys)
  then match parent !! k with Some v => Some v | None => sub !! k end
  else sub !! k.
Proof.
  revert sub. induction keys as [|k' keys IH]; intros sub; cbn.
  - by rewrite decide_False by apply not_elem_of_nil.
  - rewrite IH. destruct (decide (k = k')) as [->|Hne].
    + rewrite (decide_True (P := k' ∈ k' :: keys)) by left.
      destruct (parent !! k') as [v|] eqn:Hk'.
      * destruct (decide (k' ∈ keys)); [done | by rewrite lookup_insert_eq].
      * by destruct (decide (k' ∈ keys)).
    + destruct (decide (k ∈ keys)) as [Hin|Hnin].
      * rewrite (decide_True (P := k ∈ k' :: keys)) by (by right).
        destruct (parent !! k) as [v|]; [done|].
        destruct (parent !! k'); [by rewrite lookup_insert_ne|done].
      * rewrite (decide_False (P := k ∈ k' :: keys));
          [|rewrite elem_of_cons; intros [?|?]; done].
        destruct (parent !! k'); [by rewrite lookup_insert_ne|done].
Qed.

(** X16: the state a subgraph runs on is the initial state, with the value
    of the parent under exactly those keys that are listed in
    [inherit_keys] and present in the parent (there the parent wins over the
    initial state); no other key of the parent reaches the subgraph. *)
Theorem inherit_lookup (initial_state : State) (parent_state : option State)
    (inherit_keys : option (list string)) (k : string) :
  inherit initial_state parent_state inherit_keys !! k =
  match parent_state, inherit_keys with
  | Some parent, Some keys =>
      if decide (k ∈ keys)
      then match parent !! k with
           | Some v => Some v
           | None => initial_state !! k
           end
      else initial_state !! k
  | _, _ => initial_state !! k
  end.
Proof.
  unfold inherit. destruct parent_state as [parent|]; [|done].
  destruct inherit_keys as [[|key keys]|]; [|..|done].
  - by rewrite decide_False by apply not_elem_of_nil.
  - destruct (Nat.eqb_spec (size parent) 0) as [Hsize|_].
    + apply map_size_empty_inv in Hsize. subst parent.
      rewrite lookup_empty. by destruct (decide _).
    + apply inherit_foldl_lookup.
Qed.

End InheritFacts.

(** ** Facts about the remaining middleware hooks *)

Module MiddlewareMoreFacts.
Import Middleware MiddlewareMore.

Section Facts.
Context {W : Type}.
Implicit Types (self : MiddlewareStack W) (mw : AgentMiddleware W).
Implicit Types (mws : list (AgentMiddleware W)) (state : State) (w : W).

Lemma post_tool_call_loop_transformed mws (tool_name : string) (args : State)
    (result : value) w :
  exists final w' log,
    post_tool_call_loop mws tool_name args result w = (final, w', log) /\
    transformer <$> log = mws /\
    transformed tool_name args result w log final w'.
Proof.
  revert result w. induction mws as [|mw mws IH]; intros result w; cbn.
  - eexists _, _, _. split; [reflexivity|]. split; [reflexivity|constructor].
  - destruct (post_tool_call mw tool_name args result w) as [r1 w1] eqn:Hmw.
    destruct (IH r1 w1) as (final & w' & log & -> & Hlog & Hchain).
    eexists _, _, _. split; [reflexivity|]. split; [by cbn; rewrite Hlog|].
    by econstructor.
Qed.

(** X17: [apply_post_tool_call] calls the post-tool-call hooks in the
    reverse of the registration order, every middleware once, each on the
    result the one before handed back; what it returns is what the first
    registered middleware hands back (the tool's own result when the stack
    is empty). *)
Theorem post_tool_call_hooks_order self (tool_name : string) (args : State)
    (result : value) w :
  exists final w' log,
    apply_post_tool_call self tool_name args result w = (final, w', log) /\
    transformer <$> log = rev (_middlewares self) /\
    transformed tool_name args result w log final w' /\
    final = default result (returned <$> last log).
Proof.
  destruct (post_tool_call_loop_transformed (rev (_middlewares self))
              tool_name args result w) as (final & w' & log & Hrun & Hlog & Hch).
  exists final, w', log. split; [done|]. split; [done|]. split; [done|].
  clear -Hch. induction Hch as [|mw r w0 r' w1 log final w2 Hmw Hch IH]; [done|].
  destruct log as [|call log]; [by inversion Hch|].
  rewrite last_cons_cons, IH.
  destruct (last (call :: log)) eqn:Hlast; [done|].
  by apply last_None in Hlast.
Qed.

(** The loops over a list that ends with one more middleware. *)
Lemma pre_invoke_loop_app mws mws' state w :
  pre_invoke_loop (mws ++ mws') state w =
  let '(s1, w1, log1) := pre_invoke_loop mws state w in
  let '(s2, w2, log2) := pre_invoke_loop mws' s1 w1 in
  (s2, w2, log1 ++ log2).
Proof.
  revert state w. induction mws as [|mw mws IH]; intros state w; cbn.
  - by destruct (pre_invoke_loop mws' state w) as [[? ?] ?].
  - destruct (pre_invoke mw state w) as [s0 w0]. rewrite IH.
    destruct (pre_invoke_loop mws s0 w0) as [[s1 w1] log1].
    by destruct (pre_invoke_loop mws' s1 w1) as [[s2 w2] log2].
Qed.

Lemma post_invoke_loop_app mws mws' state w :
  post_invoke_loop (mws ++ mws') state w =
  let '(s1, w1, log1) := post_invoke_loop mws state w in
  let '(s2, w2, log2) := post_invoke_loop mws' s1 w1 in
  (s2, w2, log1 ++ log2).
Proof.
  revert state w. induction mws as [|mw mws IH]; intros state w; cbn.
  - by destruct (post_invoke_loop mws' state w) as [[? ?] ?].
  - destruct (post_invoke mw state w) as [s0 w0]. rewrite IH.
    destruct (post_invoke_loop mws s0 w0) as [[s1 w1] log1].
    by destruct (post_invoke_loop mws' s1 w1) as [[s2 w2] log2].
Qed.

Lemma post_tool_call_loop_app mws mws' (tool_name : string) (args : State)
    (result : value) w :
  post_tool_call_loop (mws ++ mws') tool_name args result w =
  let '(r1, w1, log1) := post_tool_call_loop mws tool_name args result w in
  let '(r2, w2, log2) := post_tool_call_loop mws' tool_name args r1 w1 in
  (r2, w2, log1 ++ log2).
Proof.
  revert result w. induction mws as [|mw mws IH]; intros result w; cbn.
  - by destruct (post_tool_call_loop mws' _ _ result w) as [[? ?] ?].
  - destruct (post_tool_call mw tool_name args result w) as [r0 w0]. rewrite IH.
    destruct (post_tool_call_loop mws _ _ r0 w0) as [[r1 w1] log1].
    by destruct (post_tool_call_loop mws' _ _ r1 w1) as [[r2 w2] log2].
Qed.

Lemma pre_tool_call_loop_app mws mws' (tool_name : string) (args : State) w :
  pre_tool_call_loop (mws ++ mws') tool_name args w =
  let '(r1, w1, log1) := pre_tool_call_loop mws tool_name args w in
  match r1 with
  | Some r => (Some r, w1, log1)
  | None =>
      let '(r2, w2, log2) := pre_tool_call_loop mws' tool_name args w1 in
      (r2, w2, log1 ++ log2)
  end.
Proof.
  revert w. induction mws as [|mw mws IH]; intros w; cbn.
  - by destruct (pre_tool_call_loop mws' _ _ w) as [[? ?] ?].
  - destruct (pre_tool_call mw tool_name args w) as [[r|] w0]; [done|].
    rewrite IH.
    destruct (pre_tool_call_loop mws _ _ w0) as [[[r1|] w1] log1]; [done|].
    by destruct (pre_tool_call_loop mws' _ _ w1) as [[r2 w2] log2].
Qed.

(** X18: a middleware added to a stack wraps it: on the way in its
    pre-invocation hook runs after those of the stack, on the state they
    produced; on the way out its post-invocation and post-tool-call hooks
    run before those of the stack, which work on what it produced; and its
    pre-tool-call hook is asked only when no middleware of the stack
    interrupts. *)
Theorem add_wraps_the_stack self mw state (tool_name : string) (args : State)
    (result : value) w :
  apply_pre_invoke (add self mw) state w =
    (let '(s1, w1, log1) := apply_pre_invoke self state w in
     let '(s2, w2) := pre_invoke mw s1 w1 in
     (s2, w2, log1 ++ [InvokeCall mw s1 s2])) /\
  apply_post_invoke (add self mw) state w =
    (let '(s1, w1) := post_invoke mw state w in
     let '(s2, w2, log) := apply_post_invoke self s1 w1 in
     (s2, w2, InvokeCall mw state s1 :: log)) /\
  apply_post_tool_call (add self mw) tool_name args result w =
    (let '(r1, w1) := post_tool_call mw tool_name args result w in
     let '(r2, w2, log) := apply_post_tool_call self tool_name args r1 w1 in
     (r2, w2, ResultCall mw result r1 :: log)) /\
  apply_pre_tool_call (add self mw) tool_name args w =
    (let '(r1, w1, log1) := apply_pre_tool_call self tool_name args w in
     match r1 with
     | Some r => (Some r, w1, log1)
     | None =>
         let '(r2, w2) := pre_tool_call mw tool_name args w1 in
         (r2, w2, log1 ++ [ToolCall mw r2])
     end).
Proof.
  unfold apply_pre_invoke, apply_post_invoke, apply_post_tool_call,
    apply_pre_tool_call, add. cbn [_middlewares].
  rewrite pre_invoke_loop_app, pre_tool_call_loop_app, rev_unit. cbn.
  repeat split.
  - destruct (pre_invoke_loop _ state w) as [[s1 w1] log1].
    by destruct (pre_invoke mw s1 w1).
  - destruct (pre_tool_call_loop _ _ _ w) as [[[r1|] w1] log1]; [done|].
    by destruct (pre_tool_call mw tool_name args w1) as [[r2|] w2].
Qed.

(** X19: a middleware that overrides nothing is transparent: with the base
    class placed anywhere in a stack, the four [apply_*] methods return the
    same value and leave the same world as without it. *)
Theorem base_middleware_is_transparent mws mws' state (tool_name : string)
    (args : State) (result : value) w :
  let with_base := {| _middlewares := mws ++ base :: mws' |} in
  let without := {| _middlewares := mws ++ mws' |} in
  fst (apply_pre_invoke with_base state w) =
    fst (apply_pre_invoke without state w) /\
  fst (apply_post_invoke with_base state w) =
    fst (apply_post_invoke without state w) /\
  fst (apply_pre_tool_call with_base tool_name args w) =
    fst (apply_pre_tool_call without tool_name args w) /\
  fst (apply_post_tool_call with_base tool_name args result w) =
    fst (apply_post_tool_call without tool_name args result w).
Proof.
  intros with_base without.
  unfold apply_pre_invoke, apply_post_invoke, apply_post_tool_call,
    apply_pre_tool_call, with_base, without. cbn [_middlewares].
  rewrite !rev_app_distr. cbn [rev]. rewrite <-app_assoc. cbn [app].
  rewrite !pre_invoke_loop_app, !post_invoke_loop_app,
    !pre_tool_call_loop_app, !post_tool_call_loop_app.
  repeat split.
  - destruct (pre_invoke_loop mws state w) as [[s1 w1] log1]. cbn.
    by destruct (pre_invoke_loop mws' s1 w1) as [[s2 w2] log2].
  - destruct (post_invoke_loop (rev mws') state w) as [[s1 w1] log1]. cbn.
    by destruct (post_invoke_loop (rev mws) s1 w1) as [[s2 w2] log2].
  - destruct (pre_tool_call_loop mws _ _ w) as [[[r1|] w1] log1]; [done|]. cbn.
    by destruct (pre_tool_call_loop mws' _ _ w1) as [[r2 w2] log2].
  - destruct (post_tool_call_loop (rev mws') _ _ result w) as [[r1 w1] log1].
    cbn. by destruct (post_tool_call_loop (rev mws) _ _ r1 w1) as [[r2 w2] log2].
Qed.

(** The additions a list of middlewares contributes. *)
Lemma join_empty_inv (sep : string) (parts : list string) :
  Forall (fun p => p <> "") parts -> join sep parts = "" -> parts = [].
Proof.
  intros Hparts. destruct Hparts as [|p parts Hp Hrest]; [done|].
  cbn. destruct parts as [|q parts]; [done|]. by destruct p.
Qed.

(** X20: [system_prompt_additions] leaves out the middlewares whose
    addition is empty, separator included: such a middleware can be put in
    or taken out of the stack without changing the text, and the text is
    empty exactly when no middleware contributes one. *)
Theorem system_prompt_additions_skips_empty self mws mws' mw :
  (system_prompt_addition mw = "" ->
   system_prompt_additions {| _middlewares := mws ++ mw :: mws' |} =
   system_prompt_additions {| _middlewares := mws ++ mws' |}) /\
  (system_prompt_additions self = "" <->
   Forall (fun mw => system_prompt_addition mw = "") (_middlewares self)).
Proof.
  unfold system_prompt_additions. cbn [_middlewares]. split.
  - intros Hmw. rewrite !bind_app. cbn. by rewrite Hmw.
  - generalize (_middlewares self). intros l. split.
    + intros Hjoin. apply join_empty_inv in Hjoin.
      * induction l as [|m l IH]; [constructor|]. cbn in Hjoin.
        destruct (String.eqb_spec (system_prompt_addition m) ""); [|done].
        constructor; [done|by apply IH].
      * clear Hjoin. induction l as [|m l IH]; [constructor|]. cbn.
        destruct (String.eqb_spec (system_prompt_addition m) "");
          [apply IH|constructor; [done|apply IH]].
    + intros Hall. induction Hall as [|m l Hm _ IH]; [done|].
      cbn. by rewrite Hm.
Qed.

End Facts.
End MiddlewareMoreFacts.

(** ** Facts about the planning loop *)

Module PlanningFacts.
Import Planning.

Lemma status_of_value_status_value (st : TodoStatus) :
  status_of_value (VStr (status_value st)) = Some st.
Proof. by destruct st. Qed.

Lemma status_of_value_member (st : TodoStatus) :
  status_of_value (VMember "TodoStatus" (status_name st)) = Some st.
Proof. by destruct st. Qed.

(** [TodoStatus(v)] succeeds on the value of a status and on a member of
    the enum, and on nothing else. *)
Lemma status_of_value_Some (v : value) (st : TodoStatus) :
  status_of_value v = Some st ->
  v = VStr (status_value st) \/ v = VMember "TodoStatus" (status_name st).
Proof.
  destruct v as [| | | |s| | | |enum name|]; try done;
    unfold status_of_value, statuses.
  - cbn [find status_value]. intros Hst. left. revert Hst.
    destruct (String.eqb_spec "pending" s) as [<-|_]; [by intros [= <-]|].
    destruct (String.eqb_spec "in_progress" s) as [<-|_]; [by intros [= <-]|].
    destruct (String.eqb_spec "completed" s) as [<-|_]; [by intros [= <-]|].
    destruct (String.eqb_spec "failed" s) as [<-|_]; [by intros [= <-]|].
    destruct (String.eqb_spec "skipped" s) as [<-|_]; [by intros [= <-]|].
    done.
  - destruct (String.eqb_spec enum "TodoStatus") as [->|_]; [|done].
    cbn [find status_name]. intros Hst. right. revert Hst.
    destruct (String.eqb_spec "PENDING" name) as [<-|_]; [by intros [= <-]|].
    destruct (String.eqb_spec "IN_PROGRESS" name) as [<-|_];
      [by intros [= <-]|].
    destruct (String.eqb_spec "COMPLETED" name) as [<-|_]; [by intros [= <-]|].
    destruct (String.eqb_spec "FAILED" name) as [<-|_]; [by intros [= <-]|].
    destruct (String.eqb_spec "SKIPPED" name) as [<-|_]; [by intros [= <-]|].
    done.
Qed.

Lemma from_dict_to_dict (t : Todo) : from_dict (to_dict t) = inr t.
Proof.
  destruct t as [i d st r e m]. unfold from_dict, to_dict, get. cbn [id description status result error metadata].
  replace ((_ : State) !! "id") with (Some i) by (by vm_compute).
  replace ((_ : State) !! "description") with (Some d) by (by vm_compute).
  replace ((_ : State) !! "status") with (Some (VStr (status_value st)))
    by (by vm_compute).
  replace ((_ : State) !! "result") with (Some r) by (by vm_compute).
  replace ((_ : State) !! "error") with (Some e) by (by vm_compute).
  replace ((_ : State) !! "metadata") with (Some m) by (by vm_compute).
  by rewrite status_of_value_status_value.
Qed.

(** X21: a todo written by [to_dict] is read back unchanged by [from_dict],
    and a loop written by [to_state] is read back by [from_state] with the
    same todos in the same order, its iteration counter at 0. *)
Theorem planning_round_trip (self : PlanningLoop) (t : Todo) (n : Z) :
  from_dict (to_dict t) = inr t /\
  from_state (to_state self) n =
    inr {| todos := todos self; max_iterations := n; _iteration := 0 |}.
Proof.
  split; [apply from_dict_to_dict|].
  unfold from_state, to_state.
  assert (from_dicts (to_dict <$> todos self) = inr (todos self)) as ->; [|done].
  induction (todos self) as [|t' l IH]; [done|].
  cbn. by rewrite from_dict_to_dict, IH.
Qed.

(** X22: [from_dict] succeeds exactly on a dict that has the keys ["id"]
    and ["description"] and, under ["status"], the value of a status or a
    member of [TodoStatus]; the todo it builds has that status, and the keys
    ["result"], ["error"] and ["metadata"] may be missing and then read as
    [None], [None] and an empty dict. *)
Theorem from_dict_succeeds_iff (data : State) :
  ((exists t, from_dict data = inr t) <->
   is_Some (data !! "id") /\ is_Some (data !! "description") /\
   exists st, data !! "status" = Some (VStr (status_value st)) \/
              data !! "status" = Some (VMember "TodoStatus" (status_name st))) /\
  (forall t, from_dict data = inr t ->
     (data !! "status" = Some (VStr (status_value (status t))) \/
      data !! "status" =
        Some (VMember "TodoStatus" (status_name (status t)))) /\
     result t = default VNone (data !! "result") /\
     error t = default VNone (data !! "error") /\
     metadata t = default (VDict []) (data !! "metadata")).
Proof.
  unfold from_dict. split.
  - split.
    + intros [t Ht].
      destruct (data !! "id"); [|done].
      destruct (data !! "description"); [|done].
      destruct (data !! "status") as [sv|]; [|done].
      destruct (status_of_value sv) as [st|] eqn:Hst; [|done].
      apply status_of_value_Some in Hst as [-> | ->]; eauto 6.
    + intros ([i ->] & [d ->] & st & [-> | ->]).
      * rewrite status_of_value_status_value. eauto.
      * rewrite status_of_value_member. eauto.
  - intros t.
    destruct (data !! "id"); [|done].
    destruct (data !! "description"); [|done].
    destruct (data !! "status") as [sv|]; [|done].
    destruct (status_of_value sv) as [st|] eqn:Hst; [|done].
    intros [= <-]. cbn.
    apply status_of_value_Some in Hst as [-> | ->]; auto.
Qed.

Lemma status_value_inj (a b : TodoStatus) :
  status_value a = status_value b -> a = b.
Proof. by destruct a, b. Qed.

Lemma status_eqb_true (a b : TodoStatus) : status_eqb a b = true <-> a = b.
Proof.
  unfold status_eqb. rewrite String.eqb_eq. split; [apply status_value_inj|].
  by intros ->.
Qed.

Lemma count_cons (st : TodoStatus) (t : Todo) (l : list Todo) :
  count st (t :: l) =
  ((if status_eqb (status t) st then 1 else 0) + count st l)%nat.
Proof. unfold count. cbn. by destruct (status_eqb (status t) st). Qed.

(** The counting loop of [summary], from any starting dict. *)
Lemma summary_foldl (l : list Todo) (acc : gmap string nat) :
  (forall st,
     foldl (fun summary t => alter S (status_value (status t)) summary) acc l
       !! status_value st =
     (fun n => (n + count st l)%nat) <$> acc !! status_value st) /\
  (forall k, (forall st, k <> status_value st) ->
     foldl (fun summary t => alter S (status_value (status t)) summary) acc l
       !! k = acc !! k).
Proof.
  revert acc. induction l as [|t l IH]; intros acc.
  - split; [|done]. intros st. unfold count. cbn.
    destruct (acc !! status_value st); cbn; [f_equal; lia|done].
  - cbn [foldl]. destruct (IH (alter S (status_value (status t)) acc))
      as [IH1 IH2]. split.
    + intros st. rewrite IH1, count_cons, lookup_alter.
      destruct (decide (status_value (status t) = status_value st)) as [He|Hne].
      * apply status_value_inj in He as ->.
        rewrite (proj2 (status_eqb_true st st) eq_refl).
        destruct (acc !! status_value st); cbn; [f_equal; lia|done].
      * destruct (status_eqb (status t) st) eqn:Hs.
        { apply status_eqb_true in Hs. by subst. }
        destruct (acc !! status_value st); cbn; [f_equal; lia|done].
    + intros k Hk. rewrite IH2, lookup_alter_ne; [done| |done]. apply not_eq_sym, Hk.
Qed.

Lemma count_total (l : list Todo) :
  (count PENDING l + count IN_PROGRESS l + count COMPLETED l +
   count FAILED l + count SKIPPED l)%nat = List.length l.
Proof.
  induction l as [|t l IH]; [done|]. rewrite !count_cons. cbn [List.length].
  rewrite <-IH. by destruct (status t); cbn; lia.
Qed.

(** X23: [summary] has one entry per status and no other; the entry of a
    status is the number of todos that have it, so the five counts add up to
    the number of todos. *)
Theorem summary_counts (self : PlanningLoop) :
  (forall st, summary self !! status_value st =
              Some (count st (todos self))) /\
  (forall k, (forall st, k <> status_value st) -> summary self !! k = None) /\
  (count PENDING (todos self) + count IN_PROGRESS (todos self) +
   count COMPLETED (todos self) + count FAILED (todos self) +
   count SKIPPED (todos self))%nat = len self.
Proof.
  unfold summary.
  destruct (summary_foldl (todos self)
              (list_to_map ((fun st => (status_value st, 0%nat)) <$> statuses)))
    as [H1 H2].
  split; [|split; [|apply count_total]].
  - intros st. rewrite H1. by destruct st.
  - intros k Hk. rewrite H2 by done.
    pose proof (Hk PENDING). pose proof (Hk IN_PROGRESS).
    pose proof (Hk COMPLETED). pose proof (Hk FAILED). pose proof (Hk SKIPPED).
    cbn in *. rewrite !lookup_insert_ne by done. apply lookup_empty.
Qed.

(** What a change of the first todo with a given id does to the list. *)
Lemma change_first_spec (tid : string) (change : Todo -> Todo) (st : TodoStatus)
    (l : list Todo) :
  (forall t, id (change t) = id t /\ description (change t) = description t /\
             metadata (change t) = metadata t /\ status (change t) = st) ->
  List.length (change_first tid change l) = List.length l /\
  id <$> change_first tid change l = id <$> l /\
  description <$> change_first tid change l = description <$> l /\
  metadata <$> change_first tid change l = metadata <$> l /\
  (find (has_id tid) l = None -> change_first tid change l = l) /\
  (forall t, find (has_id tid) l = Some t ->
     find (has_id tid) (change_first tid change l) = Some (change t) /\
     forall st', count st' (change_first tid change l) =
       (count st' l
        + (if status_eqb st st' then 1 else 0)
        - (if status_eqb (status t) st' then 1 else 0))%nat).
Proof.
  intros Hchange. induction l as [|t l IH]; [done|].
  destruct IH as (IHlen & IHid & IHdesc & IHmeta & IHnone & IHsome).
  destruct (Hchange t) as (Hid & Hdesc & Hmeta & Hst).
  cbn [change_first find]. destruct (has_id tid t) eqn:Ht.
  - cbn [List.length fmap list_fmap]. rewrite Hid, Hdesc, Hmeta.
    split_and!; try done.
    intros t0 [= <-]. split.
    + cbn [find]. unfold has_id in *. by rewrite Hid, Ht.
    + intros st'. rewrite !count_cons, Hst.
      destruct (status_eqb st st'), (status_eqb (status t) st'); lia.
  - cbn [List.length fmap list_fmap]. rewrite IHlen, IHid, IHdesc, IHmeta.
    split_and!; try done.
    + intros Hnone. by rewrite IHnone.
    + intros t0 Hfind. destruct (IHsome t0 Hfind) as [Hfound Hcount]. split.
      * cbn [find]. by rewrite Ht.
      * intros st'. rewrite !count_cons, Hcount.
        assert (status_eqb (status t0) st' = true -> 1 <= count st' l)%nat
          as Hpos.
        { intros Hs. clear -Hfind Hs. induction l as [|t1 l IH]; [done|].
          rewrite count_cons. cbn in Hfind. destruct (has_id tid t1).
          - simplify_eq. rewrite Hs. lia.
          - specialize (IH Hfind). lia. }
        destruct (status_eqb (status t0) st'); [specialize (Hpos eq_refl)|];
          destruct (status_eqb st st'), (status_eqb (status t) st'); lia.
Qed.

(** Bring in what [change_first_spec] says of the change in the goal. *)
Local Ltac use_change_first Hnone Hsome :=
  match goal with
  | |- context [change_first ?tid ?f (todos ?self)] =>
      let st := eval cbn in (status (f {| id := VNone; description := VNone;
                                          status := PENDING; result := VNone;
                                          error := VNone; metadata := VNone |}))
      in
      destruct (change_first_spec tid f st (todos self))
        as (? & ? & ? & ? & Hnone & Hsome); [done|]
  end.

(** X24: a marking method ([mark_in_progress], [mark_complete],
    [mark_failed], [mark_skipped]) never adds, removes or reorders todos and
    leaves every id, description and metadata and the iteration counter as
    they were; called with an id no todo has, it changes nothing at all;
    otherwise the todo [get_todo] finds gets the new status. *)
Theorem mark_changes_one_status (self : PlanningLoop) (o : op) (tid : string)
    (st : TodoStatus) :
  marks o = Some (tid, st) ->
  len (apply self o) = len self /\
  id <$> todos (apply self o) = id <$> todos self /\
  description <$> todos (apply self o) = description <$> todos self /\
  metadata <$> todos (apply self o) = metadata <$> todos self /\
  _iteration (apply self o) = _iteration self /\
  max_iterations (apply self o) = max_iterations self /\
  (get_todo self tid = None -> apply self o = self) /\
  (forall t, get_todo self tid = Some t ->
     exists t', get_todo (apply self o) tid = Some t' /\ status t' = st).
Proof.
  intros Ho. unfold len, get_todo.
  destruct o as [| |tid0|tid0 r|tid0 err|tid0 reason|]; cbn in Ho; simplify_eq;
    cbn [apply];
    unfold mark_in_progress, mark_complete, mark_failed, mark_skipped,
      with_todos;
    cbn [todos _iteration max_iterations];
    use_change_first Hnone Hsome;
    (split_and!; try done;
     [intros Hn; rewrite (Hnone Hn); by destruct self
     |intros t Ht; destruct (Hsome t Ht) as [-> _]; eauto]).
Qed.

(** X25: marking changes the count of pending todos by what it does to the
    one todo it finds: when that todo is pending, one pending todo less
    (there was at least one); when it is not, or when there is none with
    that id, as many as before. *)
Theorem mark_pending_count (self : PlanningLoop) (o : op) (tid : string)
    (st : TodoStatus) :
  marks o = Some (tid, st) ->
  match get_todo self tid with
  | Some t =>
      if status_eqb (status t) PENDING
      then S (pending (apply self o)) = pending self
      else pending (apply self o) = pending self
  | None => pending (apply self o) = pending self
  end.
Proof.
  intros Ho. unfold pending, get_todo.
  assert (status_eqb st PENDING = false) as Hst.
  { by destruct o; cbn in Ho; simplify_eq. }
  assert (forall t l, find (has_id tid) l = Some t ->
            status_eqb (status t) PENDING = true ->
            (1 <= count PENDING l)%nat) as Hpos.
  { intros t l Hfind Hp. induction l as [|t1 l IH]; [done|].
    rewrite count_cons. cbn in Hfind. destruct (has_id tid t1).
    - simplify_eq. rewrite Hp. lia.
    - specialize (IH Hfind). lia. }
  destruct o as [| |tid0|tid0 r|tid0 err|tid0 reason|]; cbn in Ho; simplify_eq;
    cbn [apply];
    unfold mark_in_progress, mark_complete, mark_failed, mark_skipped,
      with_todos;
    cbn [todos];
    use_change_first Hnone Hsome;
    (destruct (find (has_id tid) (todos self)) as [t|] eqn:Hfind;
     [|by rewrite (Hnone eq_refl)];
     destruct (Hsome t eq_refl) as [_ Hcount]; rewrite Hcount;
     cbn [status_eqb status_value String.eqb Ascii.eqb Bool.eqb];
     destruct (status_eqb (status t) PENDING) eqn:Hp; [|lia];
     specialize (Hpos t (todos self) Hfind Hp); lia).
Qed.

(** No method but [increment_iteration] touches the counter or the
    bound. *)
Lemma apply_iteration (self : PlanningLoop) (o : op) :
  max_iterations (apply self o) = max_iterations self /\
  _iteration (apply self o) =
    (_iteration self +
     match o with IncrementIteration => 1 | _ => 0 end)%Z.
Proof.
  destruct o as [hex d m|ds|tid|tid r|tid err|tid reason|]; cbn;
    try (split; [done|lia]).
  unfold set_todos.
  assert (forall acc : list Todo * PlanningLoop,
            max_iterations (snd (foldl
              (fun acc hd =>
                 let '(todo, loop) := add_todo (snd acc) (fst hd) (snd hd) VNone in
                 (fst acc ++ [todo], loop)) acc ds)) = max_iterations (snd acc) /\
            _iteration (snd (foldl
              (fun acc hd =>
                 let '(todo, loop) := add_todo (snd acc) (fst hd) (snd hd) VNone in
                 (fst acc ++ [todo], loop)) acc ds)) = _iteration (snd acc)) as H.
  { induction ds as [|hd ds IH]; intros acc; [done|]. cbn [foldl].
    destruct (IH (let '(todo, loop) := add_todo (snd acc) (fst hd) (snd hd) VNone in
                  (fst acc ++ [todo], loop))) as [-> ->]. done. }
  destruct (H ([], {| todos := []; max_iterations := max_iterations self;
                      _iteration := _iteration self |})) as [-> ->].
  cbn. split; [done|lia].
Qed.

(** X26: the iteration bound holds whatever else is done to the loop: after
    any sequence of calls on a new [PlanningLoop(max_iterations)], the
    counter is the number of [increment_iteration] calls made, and once that
    number has reached [max_iterations], [can_continue] is false, pending
    todos or not. *)
Theorem iteration_bound (n : Z) (ops : list op) :
  let self := foldl apply (init n) ops in
  _iteration self = Z.of_nat (increments ops) /\
  max_iterations self = n /\
  ((n <= Z.of_nat (increments ops))%Z -> can_continue self = false).
Proof.
  intros self.
  assert (_iteration self = Z.of_nat (increments ops) /\
          max_iterations self = n) as [Hit Hmax].
  { subst self. induction ops as [|o ops IH] using rev_ind; [done|].
    rewrite foldl_app. cbn [foldl].
    destruct (apply_iteration (foldl apply (init n) ops) o) as [-> ->].
    destruct IH as [-> ->]. split; [|done].
    unfold increments. rewrite List.filter_app, length_app. cbn.
    destruct o; cbn; lia. }
  split; [done|]. split; [done|]. intros Hn. unfold can_continue.
  rewrite Hit, Hmax. by destruct (Z.geb_spec (Z.of_nat (increments ops)) n); [|lia].
Qed.

Lemma mark_changes_one_status_witness :
  let self := snd (add_todo (init 10) "1a2b3c4d" "Task 1" VNone) in
  let o := MarkComplete "todo_1a2b3c4d" (VDict [(KStr "output", VStr "done")]) in
  len (apply self o) = len self /\
  id <$> todos (apply self o) = id <$> todos self /\
  description <$> todos (apply self o) = description <$> todos self /\
  metadata <$> todos (apply self o) = metadata <$> todos self /\
  _iteration (apply self o) = _iteration self /\
  max_iterations (apply self o) = max_iterations self /\
  (get_todo self "todo_1a2b3c4d" = None -> apply self o = self) /\
  (forall t, get_todo self "todo_1a2b3c4d" = Some t ->
     exists t', get_todo (apply self o) "todo_1a2b3c4d" = Some t' /\
                status t' = COMPLETED).
Proof.
  intros self o.
  apply (mark_changes_one_status self o "todo_1a2b3c4d" COMPLETED).
  reflexivity.
Defined.

Lemma mark_pending_count_witness :
  let self := snd (add_todo (init 10) "1a2b3c4d" "Task 1" VNone) in
  let o := MarkFailed "todo_1a2b3c4d" "Something went wrong" in
  match get_todo self "todo_1a2b3c4d" with
  | Some t =>
      if status_eqb (status t) PENDING
      then S (pending (apply self o)) = pending self
      else pending (apply self o) = pending self
  | None => pending (apply self o) = pending self
  end.
Proof.
  intros self o.
  apply (mark_pending_count self o "todo_1a2b3c4d" FAILED).
  reflexivity.
Defined.

End PlanningFacts.

Module PlanningLoopFacts.
Import Planning PlanningMore.

(** No todo of the list is pending, and none is in progress. *)
Lemma forallb_terminal (l : list Todo) :
  forallb (fun t => terminal (status t)) l = true <->
  find (fun t => status_eqb (status t) PENDING) l = None /\
  List.filter (fun t => status_eqb (status t) IN_PROGRESS) l = [].
Proof.
  induction l as [|t l IH]; cbn; [done|].
  destruct (status t); cbn; rewrite ?IH; intuition discriminate.
Qed.

(** X27: [all_complete] holds exactly when no todo is pending and none is in
    progress, that is when [get_next_pending] finds nothing and
    [get_in_progress] is empty; so [can_continue] holds exactly when the
    iteration counter is below [max_iterations] and some todo is pending or
    in progress. *)
Theorem all_complete_iff (self : PlanningLoop) :
  (all_complete self = true <->
   get_next_pending self = None /\ get_in_progress self = []) /\
  (can_continue self = true <->
   (_iteration self < max_iterations self)%Z /\
   (is_Some (get_next_pending self) \/ get_in_progress self <> [])).
Proof.
  assert (all_complete self = true <->
          get_next_pending self = None /\ get_in_progress self = []) as Hall.
  { unfold all_complete, get_next_pending, get_in_progress.
    destruct (todos self) as [|t l] eqn:Hl; [done|].
    apply forallb_terminal. }
  split; [done|]. unfold can_continue.
  destruct (Z.geb_spec (_iteration self) (max_iterations self)) as [Hge|Hlt].
  - split; [done|]. intros [? _]. lia.
  - rewrite negb_true_iff, <-not_true_iff_false, Hall.
    destruct (get_next_pending self) as [t|]; cbn.
    + split; [|by intros _ [? _]]. intros _. split; [lia|]. left. eauto.
    + destruct (get_in_progress self) as [|t l]; cbn.
      * split; [by intros []|]. intros [_ [[? ?]|?]]; done.
      * split; [|by intros _ [_ ?]]. intros _. split; [lia|]. by right.
Qed.

Lemma set_todos_foldl (descriptions : list (string * string))
    (created : list Todo) (n i : Z) :
  foldl (fun acc hd =>
           let '(todo, loop) := add_todo (snd acc) (fst hd) (snd hd) VNone in
           (fst acc ++ [todo], loop))
        (created, {| todos := created; max_iterations := n; _iteration := i |})
        descriptions =
  (created ++ (fresh <$> descriptions),
   {| todos := created ++ (fresh <$> descriptions);
      max_iterations := n; _iteration := i |}).
Proof.
  revert created. induction descriptions as [|hd l IH]; intros created; cbn.
  - by rewrite app_nil_r.
  - specialize (IH (created ++ [fresh hd])).
    rewrite <-!app_assoc in IH. exact IH.
Qed.

(** X28: [set_todos] discards the todos the loop had: afterwards the loop
    holds exactly the todos the call returns, one per description and in
    their order, each pending, without result or error and with empty
    metadata, so the loop has as many todos as descriptions were given, all
    of them pending, and [get_next_pending] finds the first; the iteration
    counter is not reset. *)
Theorem set_todos_replaces (self : PlanningLoop)
    (descriptions : list (string * string)) :
  let created := fst (set_todos self descriptions) in
  let loop := snd (set_todos self descriptions) in
  todos loop = created /\
  created = fresh <$> descriptions /\
  len loop = List.length descriptions /\
  pending loop = List.length descriptions /\
  get_next_pending loop = head created /\
  _iteration loop = _iteration self /\
  max_iterations loop = max_iterations self.
Proof.
  intros created loop. subst created loop. unfold set_todos.
  rewrite (set_todos_foldl descriptions [] _ _). cbn.
  split; [done|]. split; [done|].
  unfold len, pending, count, get_next_pending. cbn.
  assert (List.filter (fun t => status_eqb (status t) PENDING)
                      (fresh <$> descriptions) = fresh <$> descriptions) as ->.
  { induction descriptions as [|hd l IH]; cbn; [done|]. by rewrite IH. }
  rewrite length_fmap. split; [done|]. split; [done|]. split; [|done].
  by destruct descriptions.
Qed.

End PlanningLoopFacts.
